(** * Sequential backward feature selection

    A shallow embedding of [src/sequential_backward_selector.py] (class
    [SequentialBackwardSelector]) and the properties of its search loop.

    - Python integers are [Z]; feature indices and lengths are [nat].
    - A 2-D numpy array is kept as the list of its columns, so that
      [X.shape[1]] is the number of columns and [X[:, idx]] picks columns.
    - The estimator, [cross_val_score] and numpy's [mean] are collaborators
      outside the repository: they are the fields of the class
      [Collaborators], and every theorem holds for each instance of it.
    - [fit] mutates the selector (its log, and the estimator it holds) and
      may raise: it is written in a small state-and-exception monad over the
      heap that holds the selector object and the two input arrays. *)

From Stdlib Require Import ZArith Lia.
From stdpp Require Import base option list list_numbers sorting.

Open Scope Z_scope.

(** ** Exceptions and results *)

Inductive exn : Type :=
  | TypeError          (* combinations(None, r) *)
  | ValueError         (* combinations(pool, r) with r < 0 *)
  | IndexError         (* X[:, idx] with an index out of bounds *)
  | CollaboratorError. (* anything raised by the estimator or the cross-validator *)

Inductive result (A : Type) : Type :=
  | Return (a : A)
  | Raise (e : exn)
  | OutOfFuel.

Arguments Return {A} a.
Arguments Raise {A} e.
Arguments OutOfFuel {A}.

(** ** Arrays *)

Record Matrix (V : Type) : Type := MkMatrix {
  n_samples : nat;
  columns : list (list V)
}.

Arguments MkMatrix {V} n_samples columns.
Arguments n_samples {V} m.
Arguments columns {V} m.

(** [X.shape[1]] *)
Definition shape1 {V} (X : Matrix V) : nat := length (columns X).

(** [X[:, idx]] for a tuple [idx] of non-negative indices: a fresh array
    (numpy's advanced indexing copies), or [None] for numpy's IndexError. *)
Definition take_columns {V} (X : Matrix V) (idx : list nat) : option (Matrix V) :=
  match mapM (fun i => columns X !! i) idx with
  | Some cols => Some (MkMatrix (n_samples X) cols)
  | None => None
  end.

(** ** [itertools.combinations] *)

(** The r-length subsequences of [pool], in the order in which
    [itertools.combinations] emits them: lexicographic in the positions. *)
Fixpoint combinations {A} (pool : list A) (r : nat) : list (list A) :=
  match r, pool with
  | O, _ => [[]]
  | S _, [] => []
  | S r', x :: xs => map (cons x) (combinations xs r') ++ combinations xs r
  end.

(** [combinations(iterable, r)] as Python calls it: the iterable is turned
    into a tuple first (TypeError for [None]), then [r] is checked. *)
Definition py_combinations {A} (iterable : option (list A)) (r : Z)
  : exn + list (list A) :=
  match iterable with
  | None => inl TypeError
  | Some pool => if r <? 0 then inl ValueError else inr (combinations pool (Z.to_nat r))
  end.

(** ** Collaborators *)

(** What the selector consumes from outside: the estimator's [fit] and
    [score], sklearn's [cross_val_score], numpy's [mean] of the fold scores,
    and the scores themselves with the integer [0] and Python's [>].
    [None] stands for an exception raised by the collaborator. [Est] is the
    state of the estimator object. *)
Class Collaborators (V Score Est : Type) : Type := {
  estimator_fit : Est -> Matrix V -> list V -> option Est;
  estimator_score : Est -> Matrix V -> list V -> option (Score * Est);
  cross_val_score : Est -> Matrix V -> list V -> option (list Score * Est);
  mean : list Score -> Score;
  zero : Score;
  gtb : Score -> Score -> bool
}.

(** ** The selector and the heap *)

(** One entry of [best_features_]: the dict with keys 'featureSize', 'score'
    and 'features'; [features] is a tuple or [None]. *)
Record RoundRecord (Score : Type) : Type := MkRecord {
  featureSize : Z;
  score : Score;
  features : option (list nat)
}.

Arguments MkRecord {Score} featureSize score features.
Arguments featureSize {Score} r.
Arguments score {Score} r.
Arguments features {Score} r.

Record Selector (Score Est : Type) : Type := MkSelector {
  estimator : Est;
  use_cross_val : bool;
  reduced_feature_size : Z;
  best_features_ : list (RoundRecord Score)
}.

Arguments MkSelector {Score Est} estimator use_cross_val reduced_feature_size best_features_.
Arguments estimator {Score Est} s.
Arguments use_cross_val {Score Est} s.
Arguments reduced_feature_size {Score Est} s.
Arguments best_features_ {Score Est} s.

(** The objects a call [selector.fit(X, y)] can reach. *)
Record Heap (V Score Est : Type) : Type := MkHeap {
  self : Selector Score Est;
  arr_X : Matrix V;
  arr_y : list V
}.

Arguments MkHeap {V Score Est} self arr_X arr_y.
Arguments self {V Score Est} h.
Arguments arr_X {V Score Est} h.
Arguments arr_y {V Score Est} h.

(** [SequentialBackwardSelector(estimator, reduced_feature_size, use_cross_val)] *)
Definition __init__ {Score Est} (est : Est) (reduced_feature_size : Z)
    (use_cross_val : bool) : Selector Score Est :=
  MkSelector est use_cross_val reduced_feature_size [].

Definition default_reduced_feature_size : Z := 1.
Definition default_use_cross_val : bool := true.

Section Selector.
Context {V Score Est : Type} {C : Collaborators V Score Est}.

Local Abbreviation heap := (Heap V Score Est).
Local Abbreviation record := (RoundRecord Score).
Local Abbreviation combo := (list nat).

(** *** The monad *)

Definition M (A : Type) : Type := heap -> result A * heap.

Definition ret {A} (a : A) : M A := fun h => (Return a, h).

Definition raise {A} (e : exn) : M A := fun h => (Raise e, h).

Definition bind {A B} (m : M A) (k : A -> M B) : M B :=
  fun h =>
    match m h with
    | (Return a, h') => k a h'
    | (Raise e, h') => (Raise e, h')
    | (OutOfFuel, h') => (OutOfFuel, h')
    end.

Notation "x <- m ;; k" := (bind m (fun x => k))
  (at level 100, m at next level, right associativity).
Notation "m ;;; k" := (bind m (fun _ => k))
  (at level 100, right associativity).

Definition read {A} (f : heap -> A) : M A := fun h => (Return (f h), h).

Definition set_estimator (e : Est) (h : heap) : heap :=
  MkHeap (MkSelector e (use_cross_val (self h)) (reduced_feature_size (self h))
                     (best_features_ (self h)))
         (arr_X h) (arr_y h).

Definition set_best_features_ (l : list record) (h : heap) : heap :=
  MkHeap (MkSelector (estimator (self h)) (use_cross_val (self h))
                     (reduced_feature_size (self h)) l)
         (arr_X h) (arr_y h).

(** [X[:, idx]] *)
Definition index_columns (idx : combo) : M (Matrix V) :=
  fun h =>
    match take_columns (arr_X h) idx with
    | Some X' => (Return X', h)
    | None => (Raise IndexError, h)
    end.

(** [cross_val_score(self.estimator, X', y)] *)
Definition call_cross_val_score (X' : Matrix V) : M (list Score) :=
  fun h =>
    match cross_val_score (estimator (self h)) X' (arr_y h) with
    | Some (folds, e) => (Return folds, set_estimator e h)
    | None => (Raise CollaboratorError, h)
    end.

(** [self.estimator.fit(X', y)] *)
Definition call_estimator_fit (X' : Matrix V) : M unit :=
  fun h =>
    match estimator_fit (estimator (self h)) X' (arr_y h) with
    | Some e => (Return tt, set_estimator e h)
    | None => (Raise CollaboratorError, h)
    end.

(** [self.estimator.score(X', y)] *)
Definition call_estimator_score (X' : Matrix V) : M Score :=
  fun h =>
    match estimator_score (estimator (self h)) X' (arr_y h) with
    | Some (s, e) => (Return s, set_estimator e h)
    | None => (Raise CollaboratorError, h)
    end.

(** *** The methods *)

(** [_score(self, X, y, selected_feature_indexes)] *)
Definition _score (selected_feature_indexes : combo) : M Score :=
  cv <- read (fun h => use_cross_val (self h)) ;;
  if cv : bool then
    X' <- index_columns selected_feature_indexes ;;
    folds <- call_cross_val_score X' ;;
    ret (mean folds)
  else
    X1 <- index_columns selected_feature_indexes ;;
    call_estimator_fit X1 ;;;
    X2 <- index_columns selected_feature_indexes ;;
    call_estimator_score X2.

(** [_save_score(self, num_features, best_score, best_feature_combination)] *)
Definition _save_score (num_features : Z) (best_score : Score)
    (best_feature_combination : option combo) : M unit :=
  fun h =>
    (Return tt,
     set_best_features_
       (best_features_ (self h)
          ++ [MkRecord num_features best_score best_feature_combination]) h).

(** The [for] loop of [fit] over the combinations of one round. *)
Fixpoint for_combinations (combos : list combo) (best_score : Score)
    (best_feature_combination : option combo) : M (Score * option combo) :=
  match combos with
  | [] => ret (best_score, best_feature_combination)
  | feature_combination :: rest =>
      s <- _score feature_combination ;;
      if gtb s best_score
      then for_combinations rest s (Some feature_combination)
      else for_combinations rest best_score best_feature_combination
  end.

(** The [while] loop of [fit]; each iteration takes one unit of fuel. *)
Fixpoint fit_loop (fuel : nat) (feature_size : Z) (keep_features : option combo)
    : M unit :=
  match fuel with
  | O => fun h => (OutOfFuel, h)
  | S fuel' =>
      r <- read (fun h => reduced_feature_size (self h)) ;;
      if feature_size >=? r then
        match py_combinations keep_features feature_size with
        | inl e => raise e
        | inr combos =>
            best <- for_combinations combos zero None ;;
            _save_score feature_size (fst best) (snd best) ;;;
            fit_loop fuel' (feature_size - 1) (snd best)
        end
      else ret tt
  end.

(** The number of iterations of the [while] loop never exceeds this. *)
Definition fit_fuel (feature_size r : Z) : nat := S (Z.to_nat (feature_size - r + 1)).

(** [fit(self, X, y)] *)
Definition fit : M unit :=
  feature_size <- read (fun h => shape1 (arr_X h)) ;;
  r <- read (fun h => reduced_feature_size (self h)) ;;
  fit_loop (fit_fuel (Z.of_nat feature_size) r)
           (Z.of_nat feature_size) (Some (seq 0 feature_size)).

(** Heaps that differ at most in the state of the estimator. *)
Definition estimator_only (h h' : heap) : Prop := exists e, h' = set_estimator e h.

(** *** Observations on a run *)

(** The scores that the [for] loop of one round receives from [_score], in
    the order of the calls, up to the first call that raises. *)
Fixpoint scores_seen (combos : list combo) (h : heap) : list Score :=
  match combos with
  | [] => []
  | feature_combination :: rest =>
      match _score feature_combination h with
      | (Return s, h') => s :: scores_seen rest h'
      | _ => []
      end
  end.

(** The records that a call of [fit] from heap [h] adds to the log. *)
Definition appended_by_fit (h : heap) : list record :=
  drop (length (best_features_ (self h))) (best_features_ (self (snd (fit h)))).

(** Every round of the call of [fit] from [h] yields a best combination:
    the call returns, so no round raised, and no record it appended has
    [None] for its features. *)
Definition every_round_yields (h : heap) : Prop :=
  fst (fit h) = Return tt
  /\ Forall (fun rec => features rec <> None) (appended_by_fit h).

(** The scoring policy in the words of the specification, for a matrix [X']
    that already is X restricted to the columns of the combination: with
    cross-validation, the mean of the cross-validator's fold scores for the
    model, [X'] and y; without, fit the model on [X'] and y, then the
    model's score on the same [X'] and y. *)
Definition scoring_policy (X' : Matrix V) : M Score :=
  fun h =>
    if use_cross_val (self h) then
      match cross_val_score (estimator (self h)) X' (arr_y h) with
      | Some (folds, e) => (Return (mean folds), set_estimator e h)
      | None => (Raise CollaboratorError, h)
      end
    else
      match estimator_fit (estimator (self h)) X' (arr_y h) with
      | Some fitted =>
          match estimator_score fitted X' (arr_y h) with
          | Some (s, e) => (Return s, set_estimator e h)
          | None => (Raise CollaboratorError, set_estimator fitted h)
          end
      | None => (Raise CollaboratorError, h)
      end.

(** The shape of a run of the [while] loop with floor [r], entered with
    [feature_size] and [keep_features]: how it ends, and the records it
    appends. *)
Inductive run (r : Z) : Z -> option combo -> result unit -> list record -> Prop :=
  | run_below feature_size keep :
      feature_size < r ->
      run r feature_size keep (Return tt) []
  | run_no_pool feature_size :
      r <= feature_size ->
      run r feature_size None (Raise TypeError) []
  | run_negative feature_size pool :
      r <= feature_size -> feature_size < 0 ->
      run r feature_size (Some pool) (Raise ValueError) []
  | run_scoring_raises feature_size pool e :
      r <= feature_size -> 0 <= feature_size ->
      e = CollaboratorError \/ e = IndexError ->
      run r feature_size (Some pool) (Raise e) []
  | run_round feature_size pool s best res recs :
      r <= feature_size -> 0 <= feature_size ->
      match best with
      | None => s = zero
      | Some c => In c (combinations pool (Z.to_nat feature_size))
      end ->
      run r (feature_size - 1) best res recs ->
      run r feature_size (Some pool) res (MkRecord feature_size s best :: recs).

End Selector.

(** ** Orders *)

(** Python's order on tuples of integers, on tuples of the same length. *)
Inductive lex_lt : list nat -> list nat -> Prop :=
  | lex_lt_head x y xs ys : (x < y)%nat -> lex_lt (x :: xs) (y :: ys)
  | lex_lt_tail x xs ys : lex_lt xs ys -> lex_lt (x :: xs) (x :: ys).

(** [n, n-1, ...], [k] numbers. *)
Fixpoint countdown (n : Z) (k : nat) : list Z :=
  match k with
  | O => []
  | S k' => n :: countdown (n - 1) k'
  end.

(** [n, n-1, ..., r]; empty when [r > n]. *)
Definition descending (n r : Z) : list Z := countdown n (Z.to_nat (n - r + 1)).

(** Every record has its [features] set: no round left its best
    combination at [None]. *)
Definition all_set {Score} (recs : list (RoundRecord Score)) : Prop :=
  Forall (fun rec => features rec <> None) recs.

(** Each record holds a tuple as long as its [featureSize] and contained in
    the tuple of the record before it, the first one in [pool]. *)
Fixpoint shrinking {Score} (pool : list nat) (recs : list (RoundRecord Score)) : Prop :=
  match recs with
  | [] => True
  | rec :: recs' =>
      exists c, features rec = Some c
                /\ Z.of_nat (length c) = featureSize rec
                /\ c ⊆ pool
                /\ shrinking c recs'
  end.

(** Scores on which [>] is a strict weak order: no NaN among them. *)
Class ScoresOrdered {V Score Est} (C : Collaborators V Score Est) : Prop := {
  gtb_irrefl : forall a : Score, gtb a a = false;
  gtb_trans : forall a b c : Score, gtb a b = true -> gtb b c = true -> gtb a c = true;
  gtb_cotrans : forall a b c : Score, gtb a b = true -> gtb c b = false -> gtb a c = true
}.

(** ** A concrete estimator, for running the selector *)

Module Demo.

(** Entries of the first sample, one per column. *)
Definition first_row (X : Matrix Z) : list Z := map (fun col => hd 0 col) (columns X).

(** The score of the toy estimator: how many entries of the first sample
    are even. *)
Definition even_count (X : Matrix Z) : Z :=
  Z.of_nat (length (filter (fun v => Z.even v = true) (first_row X))).

Definition sumZ (l : list Z) : Z := fold_right Z.add 0 l.

#[export] Instance toy : Collaborators Z Z (list (list Z)) := {|
  estimator_fit := fun _ X' _ => Some (columns X');
  estimator_score := fun e X' _ => Some (even_count X', e);
  cross_val_score := fun e X' _ =>
    Some ([even_count X' - 1; even_count X'; even_count X' + 1], e);
  mean := fun l => sumZ l / Z.of_nat (length l);
  zero := 0;
  gtb := Z.gtb
|}.

(** One sample whose entries are the given values, one column each. *)
Definition one_sample (row : list Z) : Matrix Z := MkMatrix 1 (map (fun v => [v]) row).

Definition start (row : list Z) (r : Z) (cv : bool) : Heap Z Z (list (list Z)) :=
  MkHeap (__init__ [] r cv) (one_sample row) [1].

(** Four features with the values 0, 1, 2, 3, floor 2, no cross-validation:
    the score of a combination is the number of its even indices. *)
Definition four_features := start [0; 1; 2; 3] 2 false.

(** Three features, all odd: every score is 0. *)
Definition all_odd := start [1; 3; 5] 1 true.

(** Two features, with a floor of 0 and with a floor of 5. *)
Definition floor_zero := start [0; 2] 0 true.
Definition floor_five := start [0; 2] 5 true.

End Demo.

(** ** Collaborators that agree in part *)

Section Agreement.
Context {V Score Est : Type} (C1 C2 : Collaborators V Score Est).

(** The two sets of collaborators have the same cross-validator and mean. *)
Definition same_cross_validator : Prop :=
  (forall e X y, @cross_val_score _ _ _ C1 e X y = @cross_val_score _ _ _ C2 e X y)
  /\ (forall l, @mean _ _ _ C1 l = @mean _ _ _ C2 l).

(** The two sets of collaborators have the same estimator. *)
Definition same_estimator : Prop :=
  (forall e X y, @estimator_fit _ _ _ C1 e X y = @estimator_fit _ _ _ C2 e X y)
  /\ (forall e X y, @estimator_score _ _ _ C1 e X y = @estimator_score _ _ _ C2 e X y).

(** The collaborators agree on the half that the mode of the selector uses. *)
Definition same_for_mode (cv : bool) : Prop :=
  if cv then same_cross_validator else same_estimator.

End Agreement.

(** ** Collaborators of which one half is missing *)

Module Variants.

(** The toy cross-validator, with an estimator whose [fit] and [score]
    always raise. *)
Definition without_estimator : Collaborators Z Z (list (list Z)) := {|
  estimator_fit := fun _ _ _ => None;
  estimator_score := fun _ _ _ => None;
  cross_val_score := fun e X' _ =>
    Some ([Demo.even_count X' - 1; Demo.even_count X'; Demo.even_count X' + 1], e);
  mean := fun l => Demo.sumZ l / Z.of_nat (length l);
  zero := 0;
  gtb := Z.gtb
|}.

(** An estimator that scores 1 on whatever it is given, the empty matrix
    included. *)
Definition constant_score : Collaborators Z Z (list (list Z)) := {|
  estimator_fit := fun _ X' _ => Some (columns X');
  estimator_score := fun e _ _ => Some (1, e);
  cross_val_score := fun e _ _ => Some ([1; 1], e);
  mean := fun l => Demo.sumZ l / Z.of_nat (length l);
  zero := 0;
  gtb := Z.gtb
|}.

(** Four features with the values 0, 1, 2, 3, floor 2, with
    cross-validation. *)
Definition four_features_cv := Demo.start [0; 1; 2; 3] 2 true.

(** Two features with a floor of -1. *)
Definition floor_negative := Demo.start [0; 2] (-1) false.

End Variants.

(** * Properties *)

Section Properties.
Context {V Score Est : Type} {C : Collaborators V Score Est}.

Local Abbreviation heap := (Heap V Score Est).
Local Abbreviation record := (RoundRecord Score).
Local Abbreviation combo := (list nat).
Local Abbreviation log h := (best_features_ (self h)).

Implicit Types (h : heap) (idx c pool : combo) (combos : list combo).

(** ** Heap updates *)

Lemma set_estimator_same h : set_estimator (estimator (self h)) h = h.
Proof. destruct h as [[e cv r l] X y]; reflexivity. Qed.

Lemma set_estimator_twice e1 e2 h :
  set_estimator e2 (set_estimator e1 h) = set_estimator e2 h.
Proof. reflexivity. Qed.

Lemma estimator_only_refl h : estimator_only h h.
Proof. exists (estimator (self h)). symmetry; apply set_estimator_same. Qed.

Lemma estimator_only_trans h1 h2 h3 :
  estimator_only h1 h2 -> estimator_only h2 h3 -> estimator_only h1 h3.
Proof. intros [e1 ->] [e2 ->]. exists e2. reflexivity. Qed.

Lemma estimator_only_set e h : estimator_only h (set_estimator e h).
Proof. exists e; reflexivity. Qed.

Lemma estimator_only_frame h h' :
  estimator_only h h' ->
  arr_X h' = arr_X h /\ arr_y h' = arr_y h /\ log h' = log h
  /\ reduced_feature_size (self h') = reduced_feature_size (self h)
  /\ use_cross_val (self h') = use_cross_val (self h).
Proof. intros [e ->]. repeat split. Qed.

(** ** [_score] *)

(** [_score] is the scoring policy on the restricted matrix, or the
    IndexError of the restriction. *)
Lemma _score_unfold idx h :
  _score idx h =
  match take_columns (arr_X h) idx with
  | Some X' => scoring_policy X' h
  | None => (Raise IndexError, h)
  end.
Proof.
  unfold _score, scoring_policy, bind, read, index_columns,
    call_cross_val_score, call_estimator_fit, call_estimator_score, ret.
  destruct (use_cross_val (self h)); destruct (take_columns (arr_X h) idx) as [X'|] eqn:EX;
    try reflexivity.
  - destruct (cross_val_score _ _ _) as [[folds e]|]; reflexivity.
  - destruct (estimator_fit _ _ _) as [e1|] eqn:Efit; [|reflexivity].
    cbn [arr_X set_estimator arr_y self estimator]. rewrite EX.
    cbn [arr_X set_estimator arr_y self estimator].
    destruct (estimator_score _ _ _) as [[s e2]|]; reflexivity.
Qed.

Lemma scoring_policy_estimator_only X' h :
  estimator_only h (snd (scoring_policy X' h)).
Proof.
  unfold scoring_policy.
  destruct (use_cross_val (self h)).
  - destruct (cross_val_score _ _ _) as [[folds e]|]; cbn [snd];
      auto using estimator_only_refl, estimator_only_set.
  - destruct (estimator_fit _ _ _) as [e1|]; [|apply estimator_only_refl].
    destruct (estimator_score _ _ _) as [[s e2]|]; cbn [snd];
      apply estimator_only_set.
Qed.

Lemma scoring_policy_result X' h :
  (exists s, fst (scoring_policy X' h) = Return s)
  \/ fst (scoring_policy X' h) = Raise CollaboratorError.
Proof.
  unfold scoring_policy.
  destruct (use_cross_val (self h)).
  - destruct (cross_val_score _ _ _) as [[folds e]|]; cbn [fst]; eauto.
  - destruct (estimator_fit _ _ _) as [e1|]; [|auto].
    destruct (estimator_score _ _ _) as [[s e2]|]; cbn [fst]; eauto.
Qed.

Lemma _score_estimator_only idx h : estimator_only h (snd (_score idx h)).
Proof.
  rewrite _score_unfold. destruct (take_columns _ _).
  - apply scoring_policy_estimator_only.
  - apply estimator_only_refl.
Qed.

Lemma _score_result idx h :
  (exists s, fst (_score idx h) = Return s)
  \/ fst (_score idx h) = Raise CollaboratorError
  \/ fst (_score idx h) = Raise IndexError.
Proof.
  rewrite _score_unfold. destruct (take_columns _ _).
  - destruct (scoring_policy_result m h) as [?|?]; auto.
  - auto.
Qed.

(** What [_score] does is independent of the log, which it leaves alone. *)
Lemma _score_log idx l h :
  _score idx (set_best_features_ l h)
  = (fst (_score idx h), set_best_features_ l (snd (_score idx h))).
Proof.
  rewrite !_score_unfold. cbn [arr_X set_best_features_].
  destruct (take_columns _ _) as [X'|]; [|reflexivity].
  unfold scoring_policy. cbn [arr_y self set_best_features_ use_cross_val estimator].
  destruct (use_cross_val (self h)).
  - destruct (cross_val_score _ _ _) as [[folds e]|]; reflexivity.
  - destruct (estimator_fit _ _ _) as [e1|]; [|reflexivity].
    destruct (estimator_score _ _ _) as [[s e2]|]; reflexivity.
Qed.

(** ** The [for] loop of a round *)

Lemma for_combinations_cons c combos bs b h :
  for_combinations (c :: combos) bs b h =
  match _score c h with
  | (Return s, h1) =>
      if gtb s bs then for_combinations combos s (Some c) h1
      else for_combinations combos bs b h1
  | (Raise e, h1) => (Raise e, h1)
  | (OutOfFuel, h1) => (OutOfFuel, h1)
  end.
Proof.
  cbn [for_combinations]. unfold bind.
  destruct (_score c h) as [[s| |] h1]; try reflexivity.
  destruct (gtb s bs); reflexivity.
Qed.

Lemma scores_seen_cons c combos h :
  scores_seen (c :: combos) h =
  match _score c h with
  | (Return s, h1) => s :: scores_seen combos h1
  | _ => []
  end.
Proof. reflexivity. Qed.

(** Case analysis on the call of [_score] at the head of the loop. *)
Ltac score_cases c h s h1 E :=
  let H := fresh "H" in
  let Hf := fresh "Hframe" in
  pose proof (_score_result c h) as H;
  pose proof (_score_estimator_only c h) as Hf;
  destruct (_score c h) as [[s| |] h1] eqn:E; cbn [fst snd] in H, Hf;
  [ clear H
  | destruct H as [[? H]|[H|H]]; try discriminate H
  | exfalso; destruct H as [[? H]|[H|H]]; discriminate H ].

Lemma for_combinations_estimator_only combos bs b h :
  estimator_only h (snd (for_combinations combos bs b h)).
Proof.
  revert bs b h. induction combos as [|c combos IH]; intros bs b h.
  - apply estimator_only_refl.
  - rewrite for_combinations_cons. score_cases c h s h1 E; cbn [snd]; auto.
    destruct (gtb s bs); (eapply estimator_only_trans; [exact Hframe|apply IH]).
Qed.

(** The round ends with the baseline it started from or with one of the
    combinations, unless a call of [_score] raised. *)
Lemma for_combinations_result combos bs b h :
  match fst (for_combinations combos bs b h) with
  | Return best =>
      best = (bs, b) \/ exists c, snd best = Some c /\ In c combos
  | Raise e => e = CollaboratorError \/ e = IndexError
  | OutOfFuel => False
  end.
Proof.
  revert bs b h. induction combos as [|c combos IH]; intros bs b h.
  - left; reflexivity.
  - rewrite for_combinations_cons. score_cases c h s h1 E; cbn [fst].
    + destruct (gtb s bs).
      * specialize (IH s (Some c) h1).
        destruct (fst (for_combinations combos s (Some c) h1)) as [best| |]; auto.
        right. destruct IH as [->|(c' & ? & ?)]; [exists c|exists c']; cbn; auto.
      * specialize (IH bs b h1).
        destruct (fst (for_combinations combos bs b h1)) as [best| |]; auto.
        destruct IH as [->|(c' & ? & ?)]; [left|right; exists c']; cbn; auto.
    + injection H as <-; auto.
    + injection H as <-; auto.
Qed.

Lemma for_combinations_log combos bs b l h :
  for_combinations combos bs b (set_best_features_ l h)
  = (fst (for_combinations combos bs b h),
     set_best_features_ l (snd (for_combinations combos bs b h))).
Proof.
  revert bs b h. induction combos as [|c combos IH]; intros bs b h.
  - reflexivity.
  - rewrite !for_combinations_cons, _score_log.
    destruct (_score c h) as [[s| |] h1]; cbn [fst snd]; try reflexivity.
    destruct (gtb s bs); apply IH.
Qed.

(** A round in which no score exceeds the baseline ends with the baseline. *)
Lemma for_combinations_baseline combos bs b h :
  length (scores_seen combos h) = length combos ->
  Forall (fun s => gtb s bs = false) (scores_seen combos h) ->
  fst (for_combinations combos bs b h) = Return (bs, b).
Proof.
  revert h. induction combos as [|c combos IH]; intros h Hlen Hall.
  - reflexivity.
  - rewrite for_combinations_cons. rewrite scores_seen_cons in Hlen, Hall.
    destruct (_score c h) as [[s| |] h1]; try discriminate Hlen.
    inversion Hall as [|? ? Hs Hrest]; subst. rewrite Hs.
    apply IH; [cbn in Hlen; lia | assumption].
Qed.

(** ** The [while] loop *)

Lemma fit_loop_S fuel size keep h :
  fit_loop (S fuel) size keep h =
  if size >=? reduced_feature_size (self h) then
    match py_combinations keep size with
    | inl e => (Raise e, h)
    | inr combos =>
        match for_combinations combos zero None h with
        | (Return best, h1) =>
            fit_loop fuel (size - 1) (snd best)
              (set_best_features_
                 (log h1 ++ [MkRecord size (fst best) (snd best)]) h1)
        | (Raise e, h1) => (Raise e, h1)
        | (OutOfFuel, h1) => (OutOfFuel, h1)
        end
    end
  else (Return tt, h).
Proof.
  cbn [fit_loop]. unfold bind, read, ret, raise, _save_score.
  destruct (size >=? reduced_feature_size (self h)); [|reflexivity].
  destruct (py_combinations keep size) as [e|combos]; [reflexivity|].
  destruct (for_combinations combos zero None h) as [[best| |] h1]; reflexivity.
Qed.

(** Case analysis on the [for] loop of the current round. *)
Ltac round_cases combos h best h1 E :=
  let H := fresh "Hres" in
  let Hf := fresh "Hframe" in
  pose proof (for_combinations_result combos zero None h) as H;
  pose proof (for_combinations_estimator_only combos zero None h) as Hf;
  destruct (for_combinations combos zero None h) as [[best| |] h1] eqn:E;
  cbn [fst snd] in H, Hf; [ | | contradiction ].

(** The loop touches neither array nor the configuration of the selector. *)
Lemma fit_loop_frame fuel size keep h :
  let h' := snd (fit_loop fuel size keep h) in
  arr_X h' = arr_X h /\ arr_y h' = arr_y h
  /\ reduced_feature_size (self h') = reduced_feature_size (self h)
  /\ use_cross_val (self h') = use_cross_val (self h).
Proof.
  revert size keep h. induction fuel as [|fuel IH]; intros size keep h.
  - cbn. auto.
  - rewrite fit_loop_S.
    destruct (size >=? _); [|cbn; auto].
    destruct (py_combinations keep size) as [e|combos]; [cbn; auto|].
    round_cases combos h best h1 E;
      apply estimator_only_frame in Hframe as (HX & Hy & _ & Hr & Hcv).
    + specialize (IH (size - 1) (snd best)
        (set_best_features_ (log h1 ++ [MkRecord size (fst best) (snd best)]) h1)).
      cbn zeta in IH. cbn [arr_X arr_y self set_best_features_
        reduced_feature_size use_cross_val] in IH.
      cbn zeta. destruct IH as (-> & -> & -> & ->). auto.
    + cbn. auto.
Qed.

(** The records of a run do not depend on the log the run starts with, and
    the run appends them to it. *)
Lemma fit_loop_log fuel size keep l h :
  fit_loop fuel size keep (set_best_features_ l h) =
  (fst (fit_loop fuel size keep (set_best_features_ [] h)),
   set_best_features_
     (l ++ log (snd (fit_loop fuel size keep (set_best_features_ [] h))))
     (snd (fit_loop fuel size keep (set_best_features_ [] h)))).
Proof.
  revert size keep l h. induction fuel as [|fuel IH]; intros size keep l h.
  - cbn. rewrite app_nil_r. reflexivity.
  - rewrite !fit_loop_S. cbn [self set_best_features_ reduced_feature_size].
    destruct (size >=? _); [|cbn; rewrite app_nil_r; reflexivity].
    destruct (py_combinations keep size) as [e|combos];
      [cbn; rewrite app_nil_r; reflexivity|].
    rewrite !for_combinations_log.
    destruct (for_combinations combos zero None h) as [[best| |] h1];
      cbn [fst snd]; try (cbn; rewrite app_nil_r; reflexivity).
    cbn [self set_best_features_ best_features_].
    set (rec := MkRecord size (fst best) (snd best)).
    change (set_best_features_ (l ++ [rec]) (set_best_features_ l h1))
      with (set_best_features_ (l ++ [rec]) h1).
    change (set_best_features_ ([] ++ [rec]) (set_best_features_ [] h1))
      with (set_best_features_ ([] ++ [rec]) h1).
    rewrite (IH _ _ (l ++ [rec]) h1), (IH _ _ ([] ++ [rec]) h1).
    cbn [fst snd self set_best_features_ best_features_].
    rewrite <- app_assoc. reflexivity.
Qed.

(** With enough fuel the loop follows [run]: it never runs out. *)
Lemma fit_loop_run fuel size keep h :
  (Z.to_nat (size - reduced_feature_size (self h) + 1) < fuel)%nat ->
  exists recs,
    log (snd (fit_loop fuel size keep h)) = log h ++ recs
    /\ run (reduced_feature_size (self h)) size keep
         (fst (fit_loop fuel size keep h)) recs.
Proof.
  revert size keep h. induction fuel as [|fuel IH]; intros size keep h Hfuel.
  - lia.
  - rewrite fit_loop_S. rewrite Z.geb_leb.
    destruct (Z.leb_spec (reduced_feature_size (self h)) size) as [Hge|Hlt].
    2:{ exists []. cbn [fst snd]. rewrite app_nil_r. split; [reflexivity|].
        apply run_below; assumption. }
    destruct keep as [pool|]; cbn [py_combinations].
    2:{ exists []. cbn [fst snd]. rewrite app_nil_r. split; [reflexivity|].
        apply run_no_pool; assumption. }
    destruct (Z.ltb_spec size 0) as [Hneg|Hpos].
    { exists []. cbn [fst snd]. rewrite app_nil_r. split; [reflexivity|].
      apply run_negative; assumption. }
    round_cases (combinations pool (Z.to_nat size)) h best h1 E;
      apply estimator_only_frame in Hframe as (_ & _ & Hlog & Hr & _).
    + set (h2 := set_best_features_ _ h1).
      destruct (IH (size - 1) (snd best) h2) as (recs & Hrecs & Hrun).
      { subst h2. cbn [self set_best_features_ reduced_feature_size].
        rewrite Hr. lia. }
      exists (MkRecord size (fst best) (snd best) :: recs). split.
      * rewrite Hrecs. subst h2. cbn [self set_best_features_ best_features_].
        rewrite Hlog, <- app_assoc. reflexivity.
      * subst h2. cbn [self set_best_features_ reduced_feature_size] in Hrun.
        rewrite Hr in Hrun. apply run_round; try assumption.
        destruct Hres as [->|(c & Hc & Hin)]; [reflexivity|].
        rewrite Hc. exact Hin.
    + exists []. cbn [fst snd]. rewrite app_nil_r, Hlog. split; [reflexivity|].
      apply run_scoring_raises; assumption.
Qed.

(** ** [fit] *)

Lemma fit_unfold h :
  fit h =
  fit_loop (fit_fuel (Z.of_nat (shape1 (arr_X h))) (reduced_feature_size (self h)))
    (Z.of_nat (shape1 (arr_X h))) (Some (seq 0 (shape1 (arr_X h)))) h.
Proof. reflexivity. Qed.

(** [fit] appends to the log, and its course has the shape of [run]. *)
Lemma fit_run h :
  log (snd (fit h)) = log h ++ appended_by_fit h
  /\ run (reduced_feature_size (self h)) (Z.of_nat (shape1 (arr_X h)))
       (Some (seq 0 (shape1 (arr_X h)))) (fst (fit h)) (appended_by_fit h).
Proof.
  unfold appended_by_fit. rewrite fit_unfold.
  edestruct fit_loop_run as (recs & Hlog & Hrun);
    [|rewrite Hlog, drop_app_length; split; [reflexivity|exact Hrun]].
  unfold fit_fuel. lia.
Qed.

(** ** Combinations *)

Lemma combinations_nil_r {A} (pool : list A) : combinations pool 0 = [[]].
Proof. destruct pool; reflexivity. Qed.

(** A combination is a subsequence of the pool, of the requested length. *)
Lemma combinations_sublist {A} (pool c : list A) (k : nat) :
  In c (combinations pool k) -> sublist c pool /\ length c = k.
Proof.
  revert k c. induction pool as [|x xs IH]; intros [|k] c Hin; cbn in Hin.
  - destruct Hin as [<-|[]]. split; [constructor|reflexivity].
  - destruct Hin.
  - destruct Hin as [<-|[]]. split; [apply sublist_nil_l|reflexivity].
  - apply in_app_iff in Hin as [Hin|Hin].
    + apply in_map_iff in Hin as (c' & <- & Hin).
      apply IH in Hin as [Hsub <-]. split; [by constructor|reflexivity].
    + apply IH in Hin as [Hsub Hlen]. split; [by constructor|assumption].
Qed.

Lemma StronglySorted_sublist {A} (R : relation A) (l k : list A) :
  sublist k l -> StronglySorted R l -> StronglySorted R k.
Proof.
  induction 1 as [|x k l Hsub IH|x k l Hsub IH]; intros Hs.
  - constructor.
  - apply StronglySorted_cons in Hs as [Hall Hs]. constructor; [auto|].
    rewrite Forall_forall in *. intros y Hy. apply Hall.
    eapply elem_of_sublist; eassumption.
  - apply StronglySorted_cons in Hs as [_ Hs]. auto.
Qed.

(** Over an increasing pool the combinations come out in increasing
    lexicographic order. *)
Lemma combinations_lex_sorted (pool : list nat) (k : nat) :
  StronglySorted lt pool -> StronglySorted lex_lt (combinations pool k).
Proof.
  revert k. induction pool as [|x xs IH]; intros [|k] Hs; cbn.
  - repeat constructor.
  - constructor.
  - repeat constructor.
  - apply StronglySorted_cons in Hs as [Hall Hs].
    apply StronglySorted_app_2.
    + intros c1 c2 Hc1 Hc2.
      apply list_elem_of_fmap in Hc1 as (c1' & -> & _).
      apply list_elem_of_In, combinations_sublist in Hc2 as [Hsub Hlen].
      destruct c2 as [|y c2]; [discriminate Hlen|].
      apply lex_lt_head. rewrite Forall_forall in Hall. apply Hall.
      eapply elem_of_sublist; [|exact Hsub]. left.
    + apply (StronglySorted_fmap (cons x) lex_lt lex_lt); [|auto].
      intros; by apply lex_lt_tail.
    + auto.
Qed.

Lemma lex_lt_irrefl (c : list nat) : ~ lex_lt c c.
Proof. induction c as [|x c IH]; inversion 1; subst; [lia|auto]. Qed.

(** ** Consequences of the shape of a run *)

Section Runs.
Variable r : Z.

Lemma run_sizes size keep res (recs : list record) :
  run r size keep res recs ->
  map featureSize recs = countdown size (length recs).
Proof. induction 1; cbn; congruence. Qed.

Lemma run_return_length size keep (recs : list record) :
  run r size keep (Return tt) recs ->
  length recs = Z.to_nat (size - r + 1).
Proof.
  remember (Return tt) as res eqn:Eres. induction 1; try discriminate Eres.
  - cbn [length]. lia.
  - cbn [length]. rewrite IHrun by assumption. lia.
Qed.

Lemma run_shrinking size pool res (recs : list record) :
  run r size (Some pool) res recs -> all_set recs -> shrinking pool recs.
Proof.
  remember (Some pool) as keep eqn:Ekeep. intros Hrun. revert pool Ekeep.
  induction Hrun as [| | | |size pool' s best res recs Hr Hsize Hbest Hrun IH];
    intros p Ekeep Hset; try exact I.
  injection Ekeep as ->. apply Forall_cons in Hset as [Hhead Hset].
  cbn [features] in Hhead. destruct best as [c|]; [|congruence].
  apply combinations_sublist in Hbest as [Hsub Hlen].
  exists c. cbn [features featureSize]. repeat split.
  - lia.
  - by apply sublist_subseteq.
  - by apply IH.
Qed.

Lemma run_sublist (P : combo -> Prop) size keep res (recs : list record) :
  (forall c c', P c -> sublist c' c -> P c') ->
  run r size keep res recs ->
  (forall pool, keep = Some pool -> P pool) ->
  Forall (fun rec => forall c, features rec = Some c -> P c) recs.
Proof.
  intros HP. induction 1 as [| | | |size pool s best res recs Hr Hsize Hbest Hrun IH];
    intros Hkeep; try constructor.
  - cbn [features]. intros c ->. apply combinations_sublist in Hbest as [Hsub _].
    eapply HP; [|exact Hsub]. by apply Hkeep.
  - apply IH. intros c ->. apply combinations_sublist in Hbest as [Hsub _].
    eapply HP; [|exact Hsub]. by apply Hkeep.
Qed.

(** Only a round that left [None] behind is followed by a TypeError. *)
Lemma run_type_error size keep (recs : list record) :
  run r size keep (Raise TypeError) recs ->
  match keep with
  | None => recs = []
  | Some _ => exists recs' size', recs = recs' ++ [MkRecord size' zero None]
                                  /\ all_set recs'
  end.
Proof.
  remember (Raise TypeError) as res eqn:Eres.
  induction 1 as [| | | |size pool s best res recs Hr Hsize Hbest Hrun IH];
    try discriminate Eres; try reflexivity.
  - destruct H1; subst; discriminate Eres.
  - specialize (IH Eres). destruct best as [c|].
    + destruct IH as (recs' & size' & -> & Hset).
      exists (MkRecord size s (Some c) :: recs'), size'. split; [reflexivity|].
      constructor; [discriminate|assumption].
    + subst. exists [], size. split; [reflexivity|constructor].
Qed.

(** A run ends by returning or by raising. *)
Lemma run_ends size keep res (recs : list record) :
  run r size keep res recs -> res <> OutOfFuel.
Proof. induction 1; try discriminate; try assumption. Qed.

(** A run entered at or above the floor with a pool does not return
    without a record. *)
Lemma run_enters size pool res (recs : list record) :
  r <= size -> run r size (Some pool) res recs ->
  recs <> [] \/ exists e, res = Raise e.
Proof.
  intros Hr Hrun. inversion Hrun; subst; try lia; eauto.
Qed.

End Runs.

(** [fit] terminates: the fuel it gives to the loop is never used up. *)
Lemma fit_terminates h : fst (fit h) <> OutOfFuel.
Proof. destruct (fit_run h) as [_ Hrun]. eapply run_ends; exact Hrun. Qed.

(** When the floor is not above the number of columns, [fit] enters its
    first round: it appends a record or it raises. *)
Lemma floor_within_width_runs h :
  reduced_feature_size (self h) <= Z.of_nat (shape1 (arr_X h)) ->
  appended_by_fit h <> [] \/ exists e, fst (fit h) = Raise e.
Proof.
  intros Hr. destruct (fit_run h) as [_ Hrun]. eapply run_enters; eassumption.
Qed.

(** A TypeError of [fit] comes after a record without features, the last
    of the run. *)
Lemma fit_type_error_after_unset h :
  fst (fit h) = Raise TypeError ->
  exists recs size,
    appended_by_fit h = recs ++ [MkRecord size zero None] /\ all_set recs.
Proof.
  intros Herr. destruct (fit_run h) as [_ Hrun]. rewrite Herr in Hrun.
  apply run_type_error in Hrun. exact Hrun.
Qed.

(** ** A round that improves on nothing *)

(** When no score of a round exceeds 0, the round records [None] with
    score 0 and hands [None] to the next iteration as its pool. *)
Lemma round_without_improvement fuel size pool h :
  let combos := combinations pool (Z.to_nat size) in
  reduced_feature_size (self h) <= size -> 0 <= size ->
  length (scores_seen combos h) = length combos ->
  Forall (fun s => gtb s zero = false) (scores_seen combos h) ->
  fit_loop (S fuel) size (Some pool) h =
  fit_loop fuel (size - 1) None
    (set_best_features_ (log h ++ [MkRecord size zero None])
       (snd (for_combinations combos zero None h))).
Proof.
  intros combos Hr Hsize Hlen Hall. rewrite fit_loop_S.
  rewrite (proj2 (Z.geb_le _ _) Hr). cbn [py_combinations].
  rewrite (proj2 (Z.ltb_ge _ _) Hsize). fold combos.
  pose proof (for_combinations_baseline combos zero None h Hlen Hall) as Hbase.
  pose proof (for_combinations_estimator_only combos zero None h) as Hframe.
  destruct (for_combinations combos zero None h) as [res h1].
  cbn [fst snd] in *. subst res. cbn [fst snd].
  apply estimator_only_frame in Hframe as (_ & _ & -> & _). reflexivity.
Qed.

(** Entering the loop with [None] as the pool raises TypeError at once. *)
Lemma fit_loop_no_pool fuel size h :
  fit_loop (S fuel) size None h =
  (if size >=? reduced_feature_size (self h) then Raise TypeError else Return tt, h).
Proof. rewrite fit_loop_S. destruct (size >=? _); reflexivity. Qed.

Lemma StronglySorted_lt_NoDup (l : list nat) : StronglySorted lt l -> NoDup l.
Proof.
  induction 1 as [|x l Hs IH Hall]; constructor; [|assumption].
  rewrite Forall_forall in Hall. intros Hin. apply Hall in Hin. lia.
Qed.

Lemma StronglySorted_lt_seq (start len : nat) : StronglySorted lt (seq start len).
Proof.
  revert start. induction len as [|len IH]; intros start; cbn; constructor.
  - apply IH.
  - apply Forall_seq. intros j Hj. lia.
Qed.

Lemma StronglySorted_lookup {A} (R : relation A) (l : list A) i j x y :
  StronglySorted R l -> l !! i = Some x -> l !! j = Some y -> (i < j)%nat -> R x y.
Proof.
  intros Hs. revert i j. induction Hs as [|z l Hs IH Hall]; intros i j Hi Hj Hlt.
  - discriminate Hi.
  - destruct j as [|j]; [lia|]. destruct i as [|i]; cbn in Hi, Hj.
    + injection Hi as ->. rewrite Forall_forall in Hall. apply Hall.
      eapply list_elem_of_lookup_2; eassumption.
    + apply (IH i j); [assumption..|lia].
Qed.

(** The round keeps the first score that no other score exceeds; without a
    score above the baseline it keeps the baseline. *)
Lemma for_combinations_first_max {ordered : ScoresOrdered C} combos bs b h best h' :
  for_combinations combos bs b h = (Return best, h') ->
  length (scores_seen combos h) = length combos
  /\ (best = (bs, b) /\ Forall (fun s => gtb s bs = false) (scores_seen combos h)
      \/ exists i c,
           combos !! i = Some c /\ scores_seen combos h !! i = Some (fst best)
           /\ snd best = Some c /\ gtb (fst best) bs = true
           /\ (forall j s, scores_seen combos h !! j = Some s -> (j < i)%nat ->
                 gtb (fst best) s = true)
           /\ (forall j s, scores_seen combos h !! j = Some s -> (i < j)%nat ->
                 gtb s (fst best) = false)).
Proof.
  revert bs b h. induction combos as [|c combos IH]; intros bs b h Hrun.
  - injection Hrun as <- <-. split; [reflexivity|]. left. split; [reflexivity|constructor].
  - rewrite for_combinations_cons in Hrun. rewrite scores_seen_cons.
    destruct (_score c h) as [[s| |] h1]; try discriminate Hrun.
    destruct (gtb s bs) eqn:G; apply IH in Hrun as [Hlen Hcases];
      (split; [cbn [length]; congruence|]).
    + right. destruct Hcases as [[-> Hall]|(i & c' & Hc & Hs & Hb & Hgt & Hbefore & Hafter)].
      * exists 0%nat, c. cbn [fst snd]. repeat split; try reflexivity; try assumption.
        -- intros j s' _ Hj. lia.
        -- intros [|j] s' Hs' Hj; [lia|]. cbn in Hs'.
           eapply Forall_lookup_1 in Hall; [exact Hall|exact Hs'].
      * exists (S i), c'. repeat split; try assumption.
        -- eapply gtb_trans; eassumption.
        -- intros [|j] s' Hs' Hj; cbn in Hs'.
           ++ injection Hs' as <-. assumption.
           ++ apply (Hbefore j); [assumption|lia].
        -- intros [|j] s' Hs' Hj; [lia|]. cbn in Hs'.
           apply (Hafter j); [assumption|lia].
    + destruct Hcases as [[-> Hall]|(i & c' & Hc & Hs & Hb & Hgt & Hbefore & Hafter)].
      * left. split; [reflexivity|]. constructor; assumption.
      * right. exists (S i), c'. repeat split; try assumption.
        -- intros [|j] s' Hs' Hj; cbn in Hs'.
           ++ injection Hs' as <-. eapply gtb_cotrans; eassumption.
           ++ apply (Hbefore j); [assumption|lia].
        -- intros [|j] s' Hs' Hj; [lia|]. cbn in Hs'.
           apply (Hafter j); [assumption|lia].
Qed.

(** * The properties of the specification *)

(** C1, amended. When every round of a call of [fit] yields a best
    combination, the records it appended carry the feature sizes
    n_features, n_features - 1, ..., reduced_feature_size, in this order,
    and there are max(0, n_features - reduced_feature_size + 1) of them:
    none, not a negative number, when the floor is above n_features. *)
Theorem fit_round_sizes h :
  every_round_yields h ->
  let n := Z.of_nat (shape1 (arr_X h)) in
  let r := reduced_feature_size (self h) in
  map featureSize (appended_by_fit h) = descending n r
  /\ Z.of_nat (length (appended_by_fit h)) = Z.max 0 (n - r + 1).
Proof.
  intros [Hret _] n r. destruct (fit_run h) as [_ Hrun]. rewrite Hret in Hrun.
  pose proof (run_return_length _ _ _ _ Hrun) as Hlen.
  apply run_sizes in Hrun. fold n r in Hlen.
  split.
  - rewrite Hrun, Hlen. reflexivity.
  - rewrite Hlen. lia.
Qed.

(** C2. When every round has yielded a best combination, each record that
    [fit] appended holds a tuple as long as its featureSize, contained in
    the tuple of the record before it, and in 0..n_features-1 for the first
    record. *)
Theorem records_shrink h :
  all_set (appended_by_fit h) ->
  shrinking (seq 0 (shape1 (arr_X h))) (appended_by_fit h).
Proof.
  intros Hset. destruct (fit_run h) as [_ Hrun].
  eapply run_shrinking; eassumption.
Qed.

(** C3. Over an increasing pool a round meets the combinations in
    increasing lexicographic order, and it ends with the first combination
    whose score no other score of the round exceeds: the scores before it
    are strictly smaller, and a combination with the same score comes later
    in the enumeration, is lexicographically greater, and did not replace
    it. *)
Theorem first_maximum_wins {ordered : ScoresOrdered C} pool k h b c h' :
  StronglySorted lt pool ->
  for_combinations (combinations pool k) zero None h = (Return (b, Some c), h') ->
  let combos := combinations pool k in
  let scores := scores_seen combos h in
  StronglySorted lex_lt combos
  /\ length scores = length combos
  /\ exists i,
       combos !! i = Some c /\ scores !! i = Some b
       /\ (forall j s, scores !! j = Some s -> gtb s b = false)
       /\ (forall j s, scores !! j = Some s -> (j < i)%nat -> gtb b s = true)
       /\ (forall j c', combos !! j = Some c' -> scores !! j = Some b -> j <> i ->
             (i < j)%nat /\ lex_lt c c').
Proof.
  intros Hpool Hrun combos scores.
  pose proof (combinations_lex_sorted pool k Hpool) as Hsorted. fold combos in Hsorted.
  apply for_combinations_first_max in Hrun as [Hlen Hcases].
  fold combos in Hlen, Hcases. fold scores in Hlen, Hcases.
  split; [assumption|]. split; [assumption|].
  destruct Hcases as [[[=] _]|(i & c' & Hc & Hs & Hb & Hgt & Hbefore & Hafter)].
  cbn [fst snd] in *. injection Hb as <-.
  assert (Hbelow : forall j s, scores !! j = Some s -> (j < i)%nat -> gtb s b = false).
  { intros j s Hj Hlt. destruct (gtb s b) eqn:G; [|reflexivity].
    pose proof (gtb_trans _ _ _ (Hbefore j s Hj Hlt) G) as Hbb.
    rewrite gtb_irrefl in Hbb. discriminate Hbb. }
  assert (Hlater : forall j, scores !! j = Some b -> j <> i -> (i < j)%nat).
  { intros j Hj Hne. destruct (lt_eq_lt_dec j i) as [[Hlt| ->]|Hlt];
      [|contradiction|assumption].
    pose proof (Hbefore j b Hj Hlt) as Hbb. rewrite gtb_irrefl in Hbb. discriminate Hbb. }
  exists i. split; [assumption|]. split; [assumption|]. split; [|split].
  - intros j s Hj. destruct (lt_eq_lt_dec j i) as [[Hlt| ->]|Hlt].
    + eapply Hbelow; eassumption.
    + rewrite Hs in Hj. injection Hj as <-. apply gtb_irrefl.
    + eapply Hafter; eassumption.
  - assumption.
  - intros j c'' Hj Hsj Hne. pose proof (Hlater j Hsj Hne) as Hlt.
    split; [assumption|]. eapply StronglySorted_lookup; eassumption.
Qed.

(** C4. On X restricted to the columns of the combination, [_score] is the
    scoring policy: with cross-validation the mean of the fold scores that
    the cross-validator returns for the model, the restricted X and y;
    without it the model is fitted on the restricted X and y, and the score
    is the fitted model's score on the same restricted X and y. *)
Theorem score_follows_policy idx h X' :
  take_columns (arr_X h) idx = Some X' ->
  _score idx h = scoring_policy X' h.
Proof. intros HX. rewrite _score_unfold, HX. reflexivity. Qed.

(** C5, amended. With reduced_feature_size above n_features the loop
    condition fails at once: [fit] returns without an error, appends no
    record and leaves the heap as it was. *)
Theorem floor_above_width_is_noop h :
  Z.of_nat (shape1 (arr_X h)) < reduced_feature_size (self h) ->
  fit h = (Return tt, h).
Proof.
  intros Hlt. rewrite fit_unfold. unfold fit_fuel. rewrite fit_loop_S.
  rewrite Z.geb_leb. destruct (Z.leb_spec (reduced_feature_size (self h))
    (Z.of_nat (shape1 (arr_X h)))); [lia|reflexivity].
Qed.

(** C6. A round starts from the score 0 and the combination [None]; when
    none of its scores exceeds 0 it ends with both, and if a further round
    is due, that round asks for the combinations of [None] and the search
    aborts with a TypeError. *)
Theorem unset_pool_aborts fuel size pool h :
  let combos := combinations pool (Z.to_nat size) in
  reduced_feature_size (self h) <= size -> 0 <= size ->
  length (scores_seen combos h) = length combos ->
  Forall (fun s => gtb s zero = false) (scores_seen combos h) ->
  fst (for_combinations combos zero None h) = Return (zero, None)
  /\ (reduced_feature_size (self h) < size ->
      fst (fit_loop (S (S fuel)) size (Some pool) h) = Raise TypeError).
Proof.
  intros combos Hr Hsize Hlen Hall. split.
  - apply for_combinations_baseline; assumption.
  - intros Hnext. subst combos.
    rewrite round_without_improvement by assumption.
    rewrite fit_loop_no_pool. cbn [fst self set_best_features_ reduced_feature_size].
    pose proof (for_combinations_estimator_only
      (combinations pool (Z.to_nat size)) zero None h) as Hframe.
    apply estimator_only_frame in Hframe as (_ & _ & _ & -> & _).
    rewrite (proj2 (Z.geb_le _ _)) by lia. reflexivity.
Qed.

(** C7. Whatever the outcome of [fit], the feature matrix and the label
    vector are afterwards what they were before. *)
Theorem fit_preserves_inputs h :
  arr_X (snd (fit h)) = arr_X h /\ arr_y (snd (fit h)) = arr_y h.
Proof.
  rewrite fit_unfold.
  destruct (fit_loop_frame
    (fit_fuel (Z.of_nat (shape1 (arr_X h))) (reduced_feature_size (self h)))
    (Z.of_nat (shape1 (arr_X h))) (Some (seq 0 (shape1 (arr_X h)))) h)
    as (HX & Hy & _).
  split; assumption.
Qed.

Lemma set_best_features_same h : set_best_features_ (log h) h = h.
Proof. destruct h as [[e cv r l] X y]; reflexivity. Qed.

(** The outcome and the new records of [fit] are those of a run from an
    empty log; the log it finds is kept in front of them. *)
Lemma fit_log_independent h :
  fit h =
  (fst (fit (set_best_features_ [] h)),
   set_best_features_ (log h ++ log (snd (fit (set_best_features_ [] h))))
     (snd (fit (set_best_features_ [] h)))).
Proof.
  rewrite <- (set_best_features_same h) at 1.
  rewrite !fit_unfold. cbn [arr_X self set_best_features_ reduced_feature_size].
  apply fit_loop_log.
Qed.

(** C8. [fit] only appends: the log it leaves is the log it found followed
    by the records of this run, which are those of a run from an empty log.
    A new selector starts with an empty log, and after two calls of [fit] on
    it the log is the records of the first run followed by those of the
    second. *)
Theorem log_append_only :
  (forall h,
     log (snd (fit h)) = log h ++ appended_by_fit h
     /\ appended_by_fit h = log (snd (fit (set_best_features_ [] h))))
  /\ (forall (est : Est) (r : Z) (cv : bool) (X1 X2 : Matrix V) (y1 y2 : list V),
        let h0 := MkHeap (__init__ est r cv) X1 y1 in
        let h1 := MkHeap (self (snd (fit h0))) X2 y2 in
        log h0 = []
        /\ log (snd (fit h1)) = appended_by_fit h0 ++ appended_by_fit h1).
Proof.
  split.
  - intros h. split; [apply fit_run|].
    unfold appended_by_fit. rewrite (fit_log_independent h) at 1.
    cbn [snd self set_best_features_ best_features_]. apply drop_app_length.
  - intros est r cv X1 X2 y1 y2 h0 h1. split; [reflexivity|].
    destruct (fit_run h1) as [-> _]. reflexivity.
Qed.

(** C9. A round in which no score exceeds 0 still appends its record, with
    score 0 and [None] for the features: it is the last record of the log
    when the next round fails with the TypeError, and no tuple of
    featureSize indices stands in it. *)
Theorem unset_round_is_recorded fuel size pool h :
  let combos := combinations pool (Z.to_nat size) in
  reduced_feature_size (self h) <= size -> 0 <= size ->
  length (scores_seen combos h) = length combos ->
  Forall (fun s => gtb s zero = false) (scores_seen combos h) ->
  let after := fit_loop (S (S fuel)) size (Some pool) h in
  exists rec,
    log (snd after) = log h ++ [rec]
    /\ last (log (snd after)) = Some rec
    /\ featureSize rec = size /\ score rec = zero /\ features rec = None
    /\ fst after = (if size - 1 >=? reduced_feature_size (self h)
                    then Raise TypeError else Return tt)
    /\ ~ (exists c, features rec = Some c /\ Z.of_nat (length c) = featureSize rec).
Proof.
  intros combos Hr Hsize Hlen Hall after. subst after combos.
  rewrite round_without_improvement by assumption.
  rewrite fit_loop_no_pool. cbn [fst snd self set_best_features_
    reduced_feature_size best_features_].
  pose proof (for_combinations_estimator_only
    (combinations pool (Z.to_nat size)) zero None h) as Hframe.
  apply estimator_only_frame in Hframe as (_ & _ & _ & -> & _).
  exists (MkRecord size zero None). cbn [featureSize score features].
  repeat split; try reflexivity.
  - apply last_snoc.
  - intros (c & [=] & _).
Qed.

(** C10. Every tuple that [fit] records is strictly increasing, hence
    without repetition, and its entries are column indices of X. *)
Theorem recorded_features_sorted h rec c :
  In rec (appended_by_fit h) ->
  features rec = Some c ->
  StronglySorted lt c /\ NoDup c
  /\ Forall (fun i => (i < shape1 (arr_X h))%nat) c.
Proof.
  intros Hin Hc. destruct (fit_run h) as [_ Hrun].
  apply (run_sublist _
    (fun c => StronglySorted lt c /\ Forall (fun i => (i < shape1 (arr_X h))%nat) c))
    in Hrun.
  - rewrite List.Forall_forall in Hrun. destruct (Hrun rec Hin c Hc) as [Hs Hb].
    split; [assumption|]. split; [by apply StronglySorted_lt_NoDup|assumption].
  - intros c1 c2 [Hs Hb] Hsub. split.
    + eapply StronglySorted_sublist; eassumption.
    + rewrite Forall_forall in *. intros i Hi. apply Hb.
      eapply elem_of_sublist; eassumption.
  - intros p [= <-]. split; [apply StronglySorted_lt_seq|].
    apply Forall_seq. intros j Hj. lia.
Qed.

End Properties.

(** * The selector at work *)

Import Demo.

Lemma toy_ordered : ScoresOrdered toy.
Proof.
  split; cbn.
  - intros a. rewrite Z.gtb_ltb. apply Z.ltb_irrefl.
  - intros a b c. rewrite !Z.gtb_ltb, !Z.ltb_lt. lia.
  - intros a b c. rewrite !Z.gtb_ltb, !Z.ltb_lt, Z.ltb_ge. lia.
Qed.

(** The scenario of the specification: rounds of sizes 4, 3 and 2; the tie
    between (0,1,2) and (0,2,3) in the second goes to (0,1,2). The estimator
    is left fitted on (1,2), the last combination of the last round. *)
Example four_features_log :
  fit four_features
  = (Return tt,
     MkHeap (MkSelector [[1]; [2]] false 2
               [MkRecord 4 2 (Some [0; 1; 2; 3]%nat);
                MkRecord 3 2 (Some [0; 1; 2]%nat);
                MkRecord 2 2 (Some [0; 2]%nat)])
            (one_sample [0; 1; 2; 3]) [1]).
Proof. vm_compute. reflexivity. Qed.

Example all_odd_log :
  fit all_odd
  = (Raise TypeError,
     MkHeap (MkSelector [] true 1 [MkRecord 3 0 None]) (one_sample [1; 3; 5]) [1]).
Proof. vm_compute. reflexivity. Qed.

Lemma fit_round_sizes_witness :
  every_round_yields four_features
  /\ map featureSize (appended_by_fit four_features) = [4; 3; 2]
  /\ Z.of_nat (length (appended_by_fit four_features)) = 3.
Proof.
  assert (H : every_round_yields four_features).
  { split; [vm_compute; reflexivity|]. vm_compute. repeat constructor; discriminate. }
  split; [exact H|]. exact (fit_round_sizes four_features H).
Defined.

(** With two features and a floor of 5 the call returns, none of its rounds
    is left without a best combination, and it appended 0 records, not
    2 - 5 + 1. *)
Lemma fit_round_count_negative :
  every_round_yields floor_five
  /\ Z.of_nat (length (appended_by_fit floor_five))
     <> Z.of_nat (shape1 (arr_X floor_five)) - reduced_feature_size (self floor_five) + 1.
Proof.
  split; [split; [vm_compute; reflexivity|vm_compute; constructor]|].
  vm_compute. discriminate.
Qed.

Lemma records_shrink_witness :
  all_set (appended_by_fit four_features)
  /\ shrinking (seq 0 4) (appended_by_fit four_features).
Proof.
  assert (H : all_set (appended_by_fit four_features))
    by (vm_compute; repeat constructor; discriminate).
  split; [exact H|]. exact (records_shrink four_features H).
Defined.

Lemma first_maximum_wins_witness :
  ScoresOrdered toy
  /\ StronglySorted lt [0; 1; 2; 3]%nat
  /\ for_combinations (combinations [0; 1; 2; 3]%nat 3) zero None four_features
     = (Return (2, Some [0; 1; 2]%nat),
        snd (for_combinations (combinations [0; 1; 2; 3]%nat 3) zero None four_features))
  /\ exists i,
       combinations [0; 1; 2; 3]%nat 3 !! i = Some [0; 1; 2]%nat
       /\ forall j c',
            combinations [0; 1; 2; 3]%nat 3 !! j = Some c' ->
            scores_seen (combinations [0; 1; 2; 3]%nat 3) four_features !! j = Some 2 ->
            j <> i -> (i < j)%nat /\ lex_lt [0; 1; 2]%nat c'.
Proof.
  assert (H1 : StronglySorted lt [0; 1; 2; 3]%nat) by apply (StronglySorted_lt_seq 0 4).
  assert (H2 : for_combinations (combinations [0; 1; 2; 3]%nat 3) zero None four_features
     = (Return (2, Some [0; 1; 2]%nat),
        snd (for_combinations (combinations [0; 1; 2; 3]%nat 3) zero None four_features)))
    by (vm_compute; reflexivity).
  split; [exact toy_ordered|]. split; [exact H1|]. split; [exact H2|].
  destruct (first_maximum_wins (ordered := toy_ordered) _ _ _ _ _ _ H1 H2)
    as (_ & _ & i & Hi & _ & _ & _ & Hties).
  exists i. split; [exact Hi|exact Hties].
Defined.

Lemma score_follows_policy_witness :
  take_columns (arr_X four_features) [0; 2]%nat = Some (MkMatrix 1 [[0]; [2]])
  /\ _score [0; 2]%nat four_features
     = scoring_policy (MkMatrix 1 [[0]; [2]]) four_features.
Proof.
  assert (H : take_columns (arr_X four_features) [0; 2]%nat = Some (MkMatrix 1 [[0]; [2]]))
    by reflexivity.
  split; [exact H|]. exact (score_follows_policy _ _ _ H).
Defined.

Lemma floor_above_width_is_noop_witness :
  Z.of_nat (shape1 (arr_X floor_five)) < reduced_feature_size (self floor_five)
  /\ fit floor_five = (Return tt, floor_five).
Proof.
  assert (H : Z.of_nat (shape1 (arr_X floor_five)) < reduced_feature_size (self floor_five))
    by (vm_compute; reflexivity).
  split; [exact H|]. exact (floor_above_width_is_noop floor_five H).
Defined.

(** With two features and a floor of 0 the constraint
    n_features >= reduced_feature_size >= 1 is violated, and yet [fit] runs
    rounds: the first record it appends is that of the round of size 2. *)
Lemma floor_below_one_runs_rounds :
  ~ (Z.of_nat (shape1 (arr_X floor_zero)) >= reduced_feature_size (self floor_zero)
     /\ reduced_feature_size (self floor_zero) >= 1)
  /\ exists recs,
       appended_by_fit floor_zero = MkRecord 2 2 (Some [0; 1]%nat) :: recs.
Proof.
  split.
  - intros [_ H]. vm_compute in H. apply H. reflexivity.
  - eexists. vm_compute. reflexivity.
Qed.

Lemma unset_pool_aborts_witness :
  reduced_feature_size (self all_odd) <= 3 /\ 0 <= 3
  /\ length (scores_seen (combinations [0; 1; 2]%nat 3) all_odd)
     = length (combinations [0; 1; 2]%nat 3)
  /\ Forall (fun s => gtb s zero = false)
       (scores_seen (combinations [0; 1; 2]%nat 3) all_odd)
  /\ fst (for_combinations (combinations [0; 1; 2]%nat 3) zero None all_odd)
     = Return (zero, None)
  /\ fst (fit_loop 2 3 (Some [0; 1; 2]%nat) all_odd) = Raise TypeError.
Proof.
  assert (H1 : reduced_feature_size (self all_odd) <= 3) by (vm_compute; discriminate).
  assert (H2 : 0 <= 3) by lia.
  assert (H3 : length (scores_seen (combinations [0; 1; 2]%nat 3) all_odd)
               = length (combinations [0; 1; 2]%nat 3)) by (vm_compute; reflexivity).
  assert (H4 : Forall (fun s => gtb s zero = false)
                 (scores_seen (combinations [0; 1; 2]%nat 3) all_odd))
    by (vm_compute; repeat constructor).
  destruct (unset_pool_aborts 0 3 [0; 1; 2]%nat all_odd H1 H2 H3 H4) as [Hbest Hnext].
  repeat (split; [assumption|]). apply Hnext. vm_compute. reflexivity.
Defined.

Lemma unset_round_is_recorded_witness :
  reduced_feature_size (self all_odd) <= 3 /\ 0 <= 3
  /\ length (scores_seen (combinations [0; 1; 2]%nat 3) all_odd)
     = length (combinations [0; 1; 2]%nat 3)
  /\ Forall (fun s => gtb s zero = false)
       (scores_seen (combinations [0; 1; 2]%nat 3) all_odd)
  /\ exists rec,
       last (best_features_ (self (snd (fit_loop 2 3 (Some [0; 1; 2]%nat) all_odd))))
       = Some rec
       /\ score rec = zero /\ features rec = None.
Proof.
  assert (H1 : reduced_feature_size (self all_odd) <= 3) by (vm_compute; discriminate).
  assert (H2 : 0 <= 3) by lia.
  assert (H3 : length (scores_seen (combinations [0; 1; 2]%nat 3) all_odd)
               = length (combinations [0; 1; 2]%nat 3)) by (vm_compute; reflexivity).
  assert (H4 : Forall (fun s => gtb s zero = false)
                 (scores_seen (combinations [0; 1; 2]%nat 3) all_odd))
    by (vm_compute; repeat constructor).
  destruct (unset_round_is_recorded 0 3 [0; 1; 2]%nat all_odd H1 H2 H3 H4)
    as (rec & _ & Hlast & _ & Hscore & Hfeat & _).
  repeat (split; [assumption|]). exists rec. auto.
Defined.

Lemma recorded_features_sorted_witness :
  In (MkRecord 3 2 (Some [0; 1; 2]%nat)) (appended_by_fit four_features)
  /\ StronglySorted lt [0; 1; 2]%nat /\ NoDup [0; 1; 2]%nat
  /\ Forall (fun i => (i < 4)%nat) [0; 1; 2]%nat.
Proof.
  assert (H : In (MkRecord 3 2 (Some [0; 1; 2]%nat)) (appended_by_fit four_features))
    by (vm_compute; auto).
  split; [exact H|].
  exact (recorded_features_sorted four_features _ _ H eq_refl).
Defined.

(** * Further properties of the selector *)

Section Outcomes.
Context {V Score Est : Type} {C : Collaborators V Score Est}.

Local Abbreviation heap := (Heap V Score Est).
Local Abbreviation record := (RoundRecord Score).
Local Abbreviation combo := (list nat).
Local Abbreviation log h := (best_features_ (self h)).

Implicit Types (h : heap) (idx c pool : combo) (combos : list combo).

(** ** More on the shape of a run *)

Lemma run_length_le r size keep res (recs : list record) :
  run r size keep res recs -> (length recs <= Z.to_nat (size - r + 1))%nat.
Proof. induction 1; cbn [length]; lia. Qed.

(** Without a pool the loop appends nothing. *)
Lemma run_without_pool r size res (recs : list record) :
  run r size None res recs -> recs = [].
Proof. inversion 1; reflexivity. Qed.

Lemma run_unset_is_last r size keep res (recs : list record) :
  run r size keep res recs ->
  forall j rec, recs !! j = Some rec -> features rec = None -> S j = length recs.
Proof.
  induction 1 as [| | | |size pool s best res recs Hr Hsize Hbest Hrun IH];
    intros j rec Hj Hnone; try discriminate Hj.
  destruct j as [|j]; cbn in Hj.
  - injection Hj as <-. cbn [features] in Hnone. subst best.
    apply run_without_pool in Hrun as ->. reflexivity.
  - cbn [length]. f_equal. eapply IH; eassumption.
Qed.


Lemma run_outcomes r size keep res (recs : list record) :
  run r size keep res recs ->
  res = Return tt \/ res = Raise TypeError \/ res = Raise ValueError
  \/ res = Raise CollaboratorError \/ res = Raise IndexError.
Proof.
  induction 1 as [| | |size pool e Hr Hsize [-> | ->]|]; auto 6.
Qed.

(** Two records in a row: the second tuple is the first without one entry. *)
Lemma run_consecutive r size keep res (recs : list record) :
  run r size keep res recs ->
  forall j rec1 rec2 c1 c2,
    recs !! j = Some rec1 -> recs !! S j = Some rec2 ->
    features rec1 = Some c1 -> features rec2 = Some c2 ->
    sublist c2 c1 /\ length c1 = S (length c2).
Proof.
  induction 1 as [| | | |size pool s best res recs Hr Hsize Hbest Hrun IH];
    intros j rec1 rec2 c1 c2 Hj1 Hj2 Hc1 Hc2; try discriminate Hj1.
  destruct j as [|j]; cbn in Hj1, Hj2; [|exact (IH j rec1 rec2 c1 c2 Hj1 Hj2 Hc1 Hc2)].
  injection Hj1 as <-. cbn [features] in Hc1. subst best.
  apply combinations_sublist in Hbest as [_ Hlen1].
  inversion Hrun as [| | | |size' pool' s' best' res' recs' Hr' Hsize' Hbest' Hrun' E1 E2];
    subst; try discriminate Hj2.
  cbn in Hj2. injection Hj2 as <-. cbn [features] in Hc2. subst best'.
  apply combinations_sublist in Hbest' as [Hsub Hlen2].
  split; [assumption|]. lia.
Qed.

(** ** Lists *)

Lemma sublist_same_length {A} (k l : list A) :
  sublist k l -> length l = length k -> k = l.
Proof.
  induction 1 as [|x k l Hsub IH|x k l Hsub IH]; intros Hlen.
  - reflexivity.
  - f_equal. apply IH. cbn in Hlen. lia.
  - apply sublist_length in Hsub. cbn in Hlen. lia.
Qed.

(** A subsequence one shorter is the list without one of its entries. *)
Lemma sublist_delete_one {A} (k l : list A) :
  sublist k l -> length l = S (length k) ->
  exists i, (i < length l)%nat /\ k = delete i l.
Proof.
  induction 1 as [|x k l Hsub IH|x k l Hsub IH]; intros Hlen.
  - discriminate Hlen.
  - destruct IH as (i & Hi & ->); [cbn in Hlen; lia|].
    exists (S i). split; [cbn; lia|reflexivity].
  - exists 0%nat. split; [cbn; lia|]. cbn.
    apply sublist_same_length; [assumption|]. cbn in Hlen. lia.
Qed.

Lemma combinations_too_long {A} (pool : list A) (k : nat) :
  (length pool < k)%nat -> combinations pool k = [].
Proof.
  revert k. induction pool as [|x xs IH]; intros [|k] Hlt; cbn in *; try lia.
  - reflexivity.
  - rewrite !IH by lia. reflexivity.
Qed.

(** The only combination of all the entries of the pool is the pool. *)
Lemma combinations_all {A} (pool : list A) :
  combinations pool (length pool) = [pool].
Proof.
  induction pool as [|x xs IH]; [reflexivity|].
  cbn. rewrite IH, combinations_too_long by lia. reflexivity.
Qed.

(** ** What a call of [fit] leaves in the log *)

(** X2. Whatever the outcome, the i-th record of a call has the feature size
    n_features - i, and there are at most
    max(0, n_features - reduced_feature_size + 1) records. *)
Theorem fit_sizes_any_outcome h :
  map featureSize (appended_by_fit h)
  = countdown (Z.of_nat (shape1 (arr_X h))) (length (appended_by_fit h))
  /\ Z.of_nat (length (appended_by_fit h))
     <= Z.max 0 (Z.of_nat (shape1 (arr_X h)) - reduced_feature_size (self h) + 1).
Proof.
  destruct (fit_run h) as [_ Hrun]. split.
  - eapply run_sizes; exact Hrun.
  - apply run_length_le in Hrun. lia.
Qed.

(** X4. Only the last record of a call can be without features. *)
Theorem unset_record_is_last h j rec :
  appended_by_fit h !! j = Some rec ->
  features rec = None ->
  S j = length (appended_by_fit h) /\ score rec = zero.
Proof.
  intros Hj Hnone. destruct (fit_run h) as [_ Hrun]. split.
  - eapply run_unset_is_last; eassumption.
  - clear -Hrun Hj Hnone. revert j Hj.
    induction Hrun as [| | | |size pool s best res recs Hr Hsize Hbest Hrun IH];
      intros j Hj; try discriminate Hj.
    destruct j as [|j]; cbn in Hj.
    + injection Hj as <-. cbn [features] in Hnone. subst best. exact Hbest.
    + eapply IH; eassumption.
Qed.

(** X7. The first record of a call is that of the full set of columns, the only
    combination of the first round, unless its score did not exceed 0. *)
Theorem first_record_is_full_set h rec recs :
  appended_by_fit h = rec :: recs ->
  featureSize rec = Z.of_nat (shape1 (arr_X h))
  /\ (features rec = Some (seq 0 (shape1 (arr_X h)))
      \/ features rec = None /\ score rec = zero).
Proof.
  intros Happ. destruct (fit_run h) as [_ Hrun]. rewrite Happ in Hrun.
  inversion Hrun as [| | | |size pool s best res recs' Hr Hsize Hbest Hrun' E1 E2];
    subst. cbn [featureSize features score]. split; [reflexivity|].
  destruct best as [c|]; [left|right; auto].
  rewrite Nat2Z.id in Hbest.
  rewrite <- (length_seq (shape1 (arr_X h)) 0) in Hbest at 2.
  rewrite combinations_all in Hbest. destruct Hbest as [<-|[]]. reflexivity.
Qed.

(** X8. From one record to the next, exactly one index is removed, and the
    order of the others is kept. *)
Theorem round_removes_one_feature h j rec1 rec2 c1 c2 :
  appended_by_fit h !! j = Some rec1 ->
  appended_by_fit h !! S j = Some rec2 ->
  features rec1 = Some c1 ->
  features rec2 = Some c2 ->
  exists i, (i < length c1)%nat /\ c2 = delete i c1.
Proof.
  intros Hj1 Hj2 Hc1 Hc2. destruct (fit_run h) as [_ Hrun].
  destruct (run_consecutive _ _ _ _ _ Hrun j rec1 rec2 c1 c2 Hj1 Hj2 Hc1 Hc2)
    as [Hsub Hlen].
  apply sublist_delete_one; assumption.
Qed.


(** ** Bounds of the column indices *)

Lemma take_columns_is_Some (X : Matrix V) idx :
  is_Some (take_columns X idx) <-> Forall (fun i => (i < shape1 X)%nat) idx.
Proof.
  unfold take_columns, shape1. split.
  - intros Hsome. assert (is_Some (mapM (fun i => columns X !! i) idx)) as Hm.
    { destruct (mapM _ idx); [eauto|]. destruct Hsome as [? [=]]. }
    apply mapM_is_Some_1 in Hm. eapply Forall_impl; [exact Hm|].
    intros i Hi. cbn in Hi. by apply lookup_lt_is_Some.
  - intros Hall.
    assert (is_Some (mapM (fun i => columns X !! i) idx)) as [cols ->]; [|eauto].
    apply mapM_is_Some_2. eapply Forall_impl; [exact Hall|].
    intros i Hi. cbn. by apply lookup_lt_is_Some.
Qed.

(** X9. [_score] raises the IndexError exactly when an index of the combination
    is not a column of X, and then before the estimator or the
    cross-validator is called: the heap stays as it was. *)
Theorem _score_index_error idx h :
  (Exists (fun i => (shape1 (arr_X h) <= i)%nat) idx ->
     _score idx h = (Raise IndexError, h))
  /\ (Forall (fun i => (i < shape1 (arr_X h))%nat) idx ->
     fst (_score idx h) <> Raise IndexError).
Proof.
  rewrite _score_unfold. split.
  - intros Hex. destruct (take_columns (arr_X h) idx) as [X'|] eqn:E; [|reflexivity].
    assert (is_Some (take_columns (arr_X h) idx)) as Hsome by eauto.
    apply take_columns_is_Some in Hsome. apply Exists_exists in Hex as (i & Hi & Hge).
    rewrite Forall_forall in Hsome. apply Hsome in Hi. lia.
  - intros Hall. apply take_columns_is_Some in Hall as [X' ->].
    destruct (scoring_policy_result X' h) as [[s ->]| ->]; discriminate.
Qed.

Lemma for_combinations_no_index_error combos bs b h :
  Forall (Forall (fun i => (i < shape1 (arr_X h))%nat)) combos ->
  fst (for_combinations combos bs b h) <> Raise IndexError.
Proof.
  revert bs b h. induction combos as [|c combos IH]; intros bs b h Hall.
  - discriminate.
  - apply Forall_cons in Hall as [Hc Hall]. rewrite for_combinations_cons.
    pose proof (proj2 (_score_index_error c h) Hc) as Hne.
    pose proof (_score_estimator_only c h) as Hframe.
    destruct (_score c h) as [[s|e|] h1]; cbn [fst snd] in *.
    + apply estimator_only_frame in Hframe as (HX & _).
      destruct (gtb s bs); apply IH; rewrite HX; exact Hall.
    + intros [= ->]. by apply Hne.
    + discriminate.
Qed.

Lemma combinations_bounded (n : nat) pool k :
  Forall (fun i => (i < n)%nat) pool ->
  Forall (Forall (fun i => (i < n)%nat)) (combinations pool k).
Proof.
  intros Hpool. apply List.Forall_forall. intros c Hc.
  apply combinations_sublist in Hc as [Hsub _].
  rewrite Forall_forall in *. intros i Hi. apply Hpool.
  eapply elem_of_sublist; eassumption.
Qed.

Lemma fit_loop_no_index_error fuel size keep h :
  (forall pool, keep = Some pool ->
     Forall (fun i => (i < shape1 (arr_X h))%nat) pool) ->
  fst (fit_loop fuel size keep h) <> Raise IndexError.
Proof.
  revert size keep h. induction fuel as [|fuel IH]; intros size keep h Hkeep.
  - discriminate.
  - rewrite fit_loop_S. destruct (size >=? _); [|discriminate].
    destruct keep as [pool|]; cbn [py_combinations]; [|discriminate].
    destruct (size <? 0); [discriminate|].
    specialize (Hkeep pool eq_refl).
    pose proof (combinations_bounded _ pool (Z.to_nat size) Hkeep) as Hcombos.
    pose proof (for_combinations_no_index_error _ zero None h Hcombos) as Hne.
    pose proof (for_combinations_result (combinations pool (Z.to_nat size)) zero None h)
      as Hres.
    pose proof (for_combinations_estimator_only
      (combinations pool (Z.to_nat size)) zero None h) as Hframe.
    destruct (for_combinations _ zero None h) as [[best|e|] h1]; cbn [fst snd] in *.
    + apply IH. cbn [arr_X set_best_features_].
      apply estimator_only_frame in Hframe as (-> & _).
      intros c Hc. destruct Hres as [->|(c' & Hc' & Hin)]; [discriminate Hc|].
      rewrite Hc' in Hc. injection Hc as <-.
      rewrite List.Forall_forall in Hcombos. by apply Hcombos.
    + intros [= ->]. by apply Hne.
    + discriminate.
Qed.

(** X1. [fit] ends in one of four ways: it returns, or it raises the TypeError
    of a missing pool, the ValueError of a negative size, or what a
    collaborator raised. It never indexes X out of bounds. *)
Theorem fit_outcomes h :
  fst (fit h) = Return tt \/ fst (fit h) = Raise TypeError
  \/ fst (fit h) = Raise ValueError \/ fst (fit h) = Raise CollaboratorError.
Proof.
  destruct (fit_run h) as [_ Hrun]. apply run_outcomes in Hrun.
  assert (fst (fit h) <> Raise IndexError) as Hne.
  { rewrite fit_unfold. apply fit_loop_no_index_error.
    intros pool [= <-]. apply Forall_seq. intros j Hj. lia. }
  destruct Hrun as [?|[?|[?|[?|?]]]]; auto. contradiction.
Qed.

(** ** The frame of [fit] *)

(** X10. Of the heap, [fit] changes the log, by appending, and the state of the
    estimator, and nothing else: not the configuration of the selector, not
    the arrays. *)
Theorem fit_changes_log_and_estimator h :
  exists e,
    snd (fit h)
    = set_estimator e (set_best_features_ (log h ++ appended_by_fit h) h).
Proof.
  destruct (fit_run h) as [Hlog _].
  pose proof (fit_loop_frame
    (fit_fuel (Z.of_nat (shape1 (arr_X h))) (reduced_feature_size (self h)))
    (Z.of_nat (shape1 (arr_X h))) (Some (seq 0 (shape1 (arr_X h)))) h) as Hframe.
  rewrite <- fit_unfold in Hframe. cbn zeta in Hframe.
  destruct Hframe as (HX & Hy & Hr & Hcv).
  exists (estimator (self (snd (fit h)))). rewrite <- Hlog.
  destruct (snd (fit h)) as [[e cv r l] X y]. cbn in *. subst. reflexivity.
Qed.

(** ** The scores in the log *)

Lemma for_combinations_best_sign {ordered : ScoresOrdered C} combos h best h1 :
  for_combinations combos zero None h = (Return best, h1) ->
  match snd best with
  | None => fst best = zero
  | Some _ => gtb (fst best) zero = true
  end.
Proof.
  intros Hrun. apply for_combinations_first_max in Hrun as [_ Hcases].
  destruct Hcases as [[-> _]|(i & c & _ & _ & -> & Hgt & _)]; [reflexivity|exact Hgt].
Qed.

Lemma fit_loop_scores {ordered : ScoresOrdered C} fuel size keep h :
  exists recs,
    log (snd (fit_loop fuel size keep h)) = log h ++ recs
    /\ Forall (fun rec => match features rec with
                          | None => score rec = zero
                          | Some _ => gtb (score rec) zero = true
                          end) recs.
Proof.
  revert size keep h. induction fuel as [|fuel IH]; intros size keep h.
  - exists []. cbn. rewrite app_nil_r. split; [reflexivity|constructor].
  - rewrite fit_loop_S.
    destruct (size >=? _);
      [|exists []; cbn; rewrite app_nil_r; split; [reflexivity|constructor]].
    destruct (py_combinations keep size) as [e|combos];
      [exists []; cbn; rewrite app_nil_r; split; [reflexivity|constructor]|].
    pose proof (for_combinations_estimator_only combos zero None h) as Hframe.
    destruct (for_combinations combos zero None h) as [[best|e|] h1] eqn:E;
      cbn [fst snd] in *;
      apply estimator_only_frame in Hframe as (_ & _ & Hlog & _).
    + destruct (IH (size - 1) (snd best)
        (set_best_features_ (log h1 ++ [MkRecord size (fst best) (snd best)]) h1))
        as (recs & Hrecs & Hall).
      exists (MkRecord size (fst best) (snd best) :: recs). split.
      * rewrite Hrecs. cbn [self set_best_features_ best_features_].
        rewrite Hlog, <- app_assoc. reflexivity.
      * constructor; [|assumption]. cbn [features score].
        eapply for_combinations_best_sign; exact E.
    + exists []. rewrite app_nil_r. split; [assumption|constructor].
    + exists []. rewrite app_nil_r. split; [assumption|constructor].
Qed.

(** X11. On scores without NaN, a record of [fit] has a combination exactly when
    its score is above 0; a record without one has the score 0. *)
Theorem recorded_score_sign {ordered : ScoresOrdered C} h rec :
  In rec (appended_by_fit h) ->
  (gtb (score rec) zero = true <-> features rec <> None)
  /\ (features rec = None -> score rec = zero).
Proof.
  intros Hin. unfold appended_by_fit in Hin. rewrite fit_unfold in Hin.
  destruct (fit_loop_scores
    (fit_fuel (Z.of_nat (shape1 (arr_X h))) (reduced_feature_size (self h)))
    (Z.of_nat (shape1 (arr_X h))) (Some (seq 0 (shape1 (arr_X h)))) h)
    as (recs & Hrecs & Hall).
  rewrite Hrecs, drop_app_length in Hin.
  rewrite List.Forall_forall in Hall. specialize (Hall rec Hin).
  destruct (features rec) as [c|].
  - split; [split; [discriminate|auto]|discriminate].
  - split; [|auto]. rewrite Hall, gtb_irrefl. split; [discriminate|congruence].
Qed.

End Outcomes.

(** ** The collaborator that a mode leaves alone *)

Section Modes.
Context {V Score Est : Type} (C1 C2 : Collaborators V Score Est).

Local Abbreviation heap := (Heap V Score Est).
Local Abbreviation combo := (list nat).

Hypothesis same_zero : @zero _ _ _ C1 = @zero _ _ _ C2.
Hypothesis same_gtb : forall a b, @gtb _ _ _ C1 a b = @gtb _ _ _ C2 a b.


Lemma _score_mode (idx : combo) (h : heap) :
  same_for_mode C1 C2 (use_cross_val (self h)) ->
  @_score _ _ _ C1 idx h = @_score _ _ _ C2 idx h.
Proof.
  intros Hsame. rewrite !_score_unfold.
  destruct (take_columns (arr_X h) idx) as [X'|]; [|reflexivity].
  unfold scoring_policy. destruct (use_cross_val (self h)); cbn in Hsame.
  - destruct Hsame as [Hcv Hmean]. rewrite Hcv.
    destruct (cross_val_score _ _ _) as [[folds e]|]; [|reflexivity].
    rewrite Hmean. reflexivity.
  - destruct Hsame as [Hfit Hscore]. rewrite Hfit.
    destruct (estimator_fit _ _ _) as [fitted|]; [|reflexivity].
    rewrite Hscore. reflexivity.
Qed.

Lemma for_combinations_mode (combos : list combo) bs b (h : heap) :
  same_for_mode C1 C2 (use_cross_val (self h)) ->
  @for_combinations _ _ _ C1 combos bs b h = @for_combinations _ _ _ C2 combos bs b h.
Proof.
  revert bs b h. induction combos as [|c combos IH]; intros bs b h Hsame.
  - reflexivity.
  - rewrite !for_combinations_cons, (_score_mode c h Hsame).
    pose proof (@_score_estimator_only _ _ _ C2 c h) as Hframe.
    destruct (_score c h) as [[s|e|] h1]; try reflexivity.
    cbn [snd] in Hframe. apply estimator_only_frame in Hframe as (_ & _ & _ & _ & Hcv).
    rewrite same_gtb. destruct (gtb s bs); apply IH; rewrite Hcv; exact Hsame.
Qed.

Lemma fit_loop_mode fuel size keep (h : heap) :
  same_for_mode C1 C2 (use_cross_val (self h)) ->
  @fit_loop _ _ _ C1 fuel size keep h = @fit_loop _ _ _ C2 fuel size keep h.
Proof.
  revert size keep h. induction fuel as [|fuel IH]; intros size keep h Hsame.
  - reflexivity.
  - rewrite !fit_loop_S. destruct (size >=? _); [|reflexivity].
    destruct (py_combinations keep size) as [e|combos]; [reflexivity|].
    rewrite same_zero, (for_combinations_mode combos _ None h Hsame).
    pose proof (@for_combinations_estimator_only _ _ _ C2 combos zero None h) as Hframe.
    destruct (for_combinations combos zero None h) as [[best|e|] h1]; try reflexivity.
    cbn [snd] in Hframe. apply estimator_only_frame in Hframe as (_ & _ & _ & _ & Hcv).
    apply IH. cbn [self set_best_features_ use_cross_val]. rewrite Hcv. exact Hsame.
Qed.

(** X12. What [fit] does depends only on the collaborator of its mode: with
    cross-validation on the cross-validator and the mean, and not on the
    estimator's own [fit] and [score], which are never called; without it
    on the estimator, and not on the cross-validator. *)
Theorem fit_uses_one_collaborator (h : heap) :
  same_for_mode C1 C2 (use_cross_val (self h)) ->
  @fit _ _ _ C1 h = @fit _ _ _ C2 h.
Proof. intros Hsame. rewrite !fit_unfold. by apply fit_loop_mode. Qed.

End Modes.

(** ** Completion and the estimator *)

Section Completion.
Context {V Score Est : Type} {C : Collaborators V Score Est}.

Local Abbreviation heap := (Heap V Score Est).
Local Abbreviation record := (RoundRecord Score).
Local Abbreviation combo := (list nat).

Lemma run_raise_is_short r size keep e (recs : list record) :
  run r size keep (Raise e) recs ->
  (length recs < Z.to_nat (size - r + 1))%nat.
Proof.
  remember (Raise e) as res eqn:Eres.
  induction 1 as [| | | |size pool s best res recs Hr Hsize Hbest Hrun IH];
    try discriminate Eres; cbn [length]; try lia.
  specialize (IH Eres). lia.
Qed.

(** X3. [fit] returns exactly when the log has received the records of all the
    rounds from n_features down to reduced_feature_size; a call that raises
    leaves fewer. *)
Theorem fit_returns_iff_all_rounds (h : heap) :
  fst (fit h) = Return tt
  <-> length (appended_by_fit h)
      = Z.to_nat (Z.of_nat (shape1 (arr_X h)) - reduced_feature_size (self h) + 1).
Proof.
  destruct (fit_run h) as [_ Hrun]. split.
  - intros Hret. rewrite Hret in Hrun. eapply run_return_length; exact Hrun.
  - intros Hlen. pose proof (fit_terminates h) as Hfuel.
    destruct (fst (fit h)) as [[]|e|]; [reflexivity| |contradiction].
    apply run_raise_is_short in Hrun. lia.
Qed.

(** X14. [fit] does nothing at all exactly when the floor is above the number
    of columns; otherwise its first round changes the log or raises. *)
Theorem fit_is_noop_iff (h : heap) :
  fit h = (Return tt, h)
  <-> Z.of_nat (shape1 (arr_X h)) < reduced_feature_size (self h).
Proof.
  split.
  - intros Hnoop.
    destruct (Z.lt_ge_cases (Z.of_nat (shape1 (arr_X h))) (reduced_feature_size (self h)))
      as [Hlt|Hge]; [exact Hlt|exfalso].
    destruct (floor_within_width_runs h Hge) as [Hrecs|[e He]].
    + apply Hrecs. unfold appended_by_fit. rewrite Hnoop. cbn [snd].
      apply drop_all.
    + rewrite Hnoop in He. discriminate He.
  - intros Hlt. rewrite fit_unfold. unfold fit_fuel. rewrite fit_loop_S.
    rewrite Z.geb_leb. destruct (Z.leb_spec (reduced_feature_size (self h))
      (Z.of_nat (shape1 (arr_X h)))); [lia|reflexivity].
Qed.



Section Cross_validation.
Hypothesis cross_validator_keeps_estimator :
  forall e X y folds e', cross_val_score e X y = Some (folds, e') -> e' = e.

Lemma _score_keeps_estimator (idx : combo) (h : heap) :
  use_cross_val (self h) = true -> snd (_score idx h) = h.
Proof.
  intros Hcv. rewrite _score_unfold.
  destruct (take_columns (arr_X h) idx) as [X'|]; [|reflexivity].
  unfold scoring_policy. rewrite Hcv.
  destruct (cross_val_score _ _ _) as [[folds e]|] eqn:E; [|reflexivity].
  apply cross_validator_keeps_estimator in E as ->. apply set_estimator_same.
Qed.

Lemma for_combinations_keeps_estimator (combos : list combo) bs b (h : heap) :
  use_cross_val (self h) = true -> snd (for_combinations combos bs b h) = h.
Proof.
  intros Hcv. revert bs b. induction combos as [|c combos IH]; intros bs b.
  - reflexivity.
  - rewrite for_combinations_cons.
    pose proof (_score_keeps_estimator c h Hcv) as Hsame.
    destruct (_score c h) as [[s|e|] h1]; cbn [snd] in Hsame; subst h1;
      try reflexivity.
    destruct (gtb s bs); apply IH.
Qed.

Lemma fit_loop_keeps_estimator fuel size keep (h : heap) :
  use_cross_val (self h) = true ->
  estimator (self (snd (fit_loop fuel size keep h))) = estimator (self h).
Proof.
  revert size keep h. induction fuel as [|fuel IH]; intros size keep h Hcv.
  - reflexivity.
  - rewrite fit_loop_S. destruct (size >=? _); [|reflexivity].
    destruct (py_combinations keep size) as [e|combos]; [reflexivity|].
    pose proof (for_combinations_keeps_estimator combos zero None h Hcv) as Hsame.
    destruct (for_combinations combos zero None h) as [[best|e|] h1];
      cbn [snd] in Hsame; subst h1; try reflexivity.
    rewrite IH; [reflexivity|exact Hcv].
Qed.

(** X13. With cross-validation [fit] hands the estimator to the cross-validator
    only: when the cross-validator leaves it as it is, so does [fit]. *)
Theorem cross_validation_keeps_estimator (h : heap) :
  use_cross_val (self h) = true ->
  estimator (self (snd (fit h))) = estimator (self h).
Proof. intros Hcv. rewrite fit_unfold. by apply fit_loop_keeps_estimator. Qed.

End Cross_validation.

End Completion.

(** ** The further properties at work *)

(** With a floor of -1 and scores that are always 1, the rounds of the
    sizes 2, 1 and 0 are recorded, the last with the empty tuple, and the
    round of size -1 raises the ValueError. *)
Example floor_negative_log :
  @fit _ _ _ Variants.constant_score Variants.floor_negative
  = (Raise ValueError,
     MkHeap (MkSelector [] false (-1)
               [MkRecord 2 1 (Some [0; 1]%nat);
                MkRecord 1 1 (Some [0]%nat);
                MkRecord 0 1 (Some [])])
            (one_sample [0; 2]) [1]).
Proof. vm_compute. reflexivity. Qed.

Lemma unset_record_is_last_witness :
  appended_by_fit all_odd !! 0%nat = Some (MkRecord 3 0 None)
  /\ 1%nat = length (appended_by_fit all_odd).
Proof.
  assert (H : appended_by_fit all_odd !! 0%nat = Some (MkRecord 3 0 None))
    by (vm_compute; reflexivity).
  split; [exact H|].
  exact (proj1 (unset_record_is_last all_odd 0 (MkRecord 3 0 None) H eq_refl)).
Defined.

Lemma first_record_is_full_set_witness :
  appended_by_fit four_features
  = MkRecord 4 2 (Some [0; 1; 2; 3]%nat)
      :: [MkRecord 3 2 (Some [0; 1; 2]%nat); MkRecord 2 2 (Some [0; 2]%nat)]
  /\ featureSize (MkRecord 4 2 (Some [0; 1; 2; 3]%nat)) = 4.
Proof.
  assert (H : appended_by_fit four_features
    = MkRecord 4 2 (Some [0; 1; 2; 3]%nat)
        :: [MkRecord 3 2 (Some [0; 1; 2]%nat); MkRecord 2 2 (Some [0; 2]%nat)])
    by (vm_compute; reflexivity).
  split; [exact H|].
  exact (proj1 (first_record_is_full_set four_features _ _ H)).
Defined.

Lemma round_removes_one_feature_witness :
  appended_by_fit four_features !! 1%nat = Some (MkRecord 3 2 (Some [0; 1; 2]%nat))
  /\ appended_by_fit four_features !! 2%nat = Some (MkRecord 2 2 (Some [0; 2]%nat))
  /\ exists i, (i < 3)%nat /\ [0; 2]%nat = delete i [0; 1; 2]%nat.
Proof.
  assert (H1 : appended_by_fit four_features !! 1%nat
               = Some (MkRecord 3 2 (Some [0; 1; 2]%nat))) by (vm_compute; reflexivity).
  assert (H2 : appended_by_fit four_features !! 2%nat
               = Some (MkRecord 2 2 (Some [0; 2]%nat))) by (vm_compute; reflexivity).
  split; [exact H1|]. split; [exact H2|].
  exact (round_removes_one_feature four_features 1 _ _ _ _ H1 H2 eq_refl eq_refl).
Defined.



Lemma _score_index_error_witness :
  Exists (fun i => (shape1 (arr_X four_features) <= i)%nat) [0; 7]%nat
  /\ _score [0; 7]%nat four_features = (Raise IndexError, four_features)
  /\ Forall (fun i => (i < shape1 (arr_X four_features))%nat) [0; 2]%nat
  /\ fst (_score [0; 2]%nat four_features) <> Raise IndexError.
Proof.
  assert (H1 : Exists (fun i => (shape1 (arr_X four_features) <= i)%nat) [0; 7]%nat).
  { right. left. vm_compute. lia. }
  assert (H2 : Forall (fun i => (i < shape1 (arr_X four_features))%nat) [0; 2]%nat).
  { repeat constructor; vm_compute; lia. }
  split; [exact H1|].
  split; [exact (proj1 (_score_index_error [0; 7]%nat four_features) H1)|].
  split; [exact H2|].
  exact (proj2 (_score_index_error [0; 2]%nat four_features) H2).
Defined.

Lemma recorded_score_sign_witness :
  ScoresOrdered toy
  /\ In (MkRecord 3 2 (Some [0; 1; 2]%nat)) (appended_by_fit four_features)
  /\ (gtb 2 zero = true <-> Some [0; 1; 2]%nat <> None).
Proof.
  assert (H : In (MkRecord 3 2 (Some [0; 1; 2]%nat)) (appended_by_fit four_features))
    by (vm_compute; auto).
  split; [exact toy_ordered|]. split; [exact H|].
  exact (proj1 (recorded_score_sign (ordered := toy_ordered) four_features _ H)).
Defined.

Lemma fit_uses_one_collaborator_witness :
  @zero _ _ _ toy = @zero _ _ _ Variants.without_estimator
  /\ (forall a b, @gtb _ _ _ toy a b = @gtb _ _ _ Variants.without_estimator a b)
  /\ same_for_mode toy Variants.without_estimator
       (use_cross_val (self Variants.four_features_cv))
  /\ @fit _ _ _ toy Variants.four_features_cv
     = @fit _ _ _ Variants.without_estimator Variants.four_features_cv.
Proof.
  assert (H1 : @zero _ _ _ toy = @zero _ _ _ Variants.without_estimator) by reflexivity.
  assert (H2 : forall a b, @gtb _ _ _ toy a b = @gtb _ _ _ Variants.without_estimator a b)
    by reflexivity.
  assert (H3 : same_for_mode toy Variants.without_estimator
                 (use_cross_val (self Variants.four_features_cv)))
    by (split; reflexivity).
  split; [exact H1|]. split; [exact H2|]. split; [exact H3|].
  exact (fit_uses_one_collaborator toy Variants.without_estimator H1 H2
           Variants.four_features_cv H3).
Defined.

Lemma cross_validation_keeps_estimator_witness :
  (forall e X y folds e',
     @cross_val_score _ _ _ toy e X y = Some (folds, e') -> e' = e)
  /\ use_cross_val (self Variants.four_features_cv) = true
  /\ estimator (self (snd (fit Variants.four_features_cv)))
     = estimator (self Variants.four_features_cv).
Proof.
  assert (H1 : forall e X y folds e',
            @cross_val_score _ _ _ toy e X y = Some (folds, e') -> e' = e).
  { intros e X y folds e' E. cbn in E. injection E as _ <-. reflexivity. }
  assert (H2 : use_cross_val (self Variants.four_features_cv) = true) by reflexivity.
  split; [exact H1|]. split; [exact H2|].
  exact (cross_validation_keeps_estimator H1 Variants.four_features_cv H2).
Defined.
